(** * BFS on a chess board and double-BFS tree diameter

    A shallow embedding of the two programs of the repository:

    - [Chess]    : [chapter 2/bfs /bfs.py], the step-by-step BFS of the
                   [BFSVisualizer] class over the moves of a chess piece;
    - [Diameter] : [chapter 2/bfs /tree_diameter.py], the user-built graph,
                   its event handlers, [bfs] and [find_diameter].

    Rendering only reads the state: of [bfs.py]'s [draw_scene] and the like
    nothing is kept, and of [tree_diameter.py]'s [draw] what it reads of the
    globals, which decides whether it returns.  The pacing calls to [sleep]
    are left out; [update_animation], which only interpolates the position
    of the moving piece, is not modelled either. *)

From Stdlib Require Import ZArith List Lia PrimFloat.
From stdpp Require Import gmap list.

Open Scope Z_scope.

(** ** Outcomes of a Python call

    A call returns normally, raises, or (for the [while] loops, which are run
    on fuel) has not finished when the fuel is spent. *)

Inductive exn :=
| AttributeError   (* an attribute the object does not have *)
| KeyError         (* missing dictionary key *)
| IndexError       (* index out of range *)
| ValueError       (* [list.remove] of an absent element *)
| TypeError        (* a method of [list] called on what is not a list *)
| OverflowError    (* an [int] too large to convert to [float] *)
| DanglingRef.     (* model only: a reference outside the object store;
                      Python references always designate a live object *)

Inductive result (A : Type) :=
| Ok (a : A)
| Raise (e : exn)
| OutOfFuel.
Arguments Ok {A} a.
Arguments Raise {A} e.
Arguments OutOfFuel {A}.

Definition bind {A B} (r : result A) (k : A → result B) : result B :=
  match r with
  | Ok a => k a
  | Raise e => Raise e
  | OutOfFuel => OutOfFuel
  end.

Notation "'let*' x := r 'in' k" := (bind r (λ x, k))
  (at level 10, x name, r at level 100, k at level 200, only parsing).
Notation "'let*' ' p := r 'in' k" := (bind r (λ p, k))
  (at level 10, p pattern, r at level 100, k at level 200, only parsing).

Definition lift {A} (e : exn) (o : option A) : result A :=
  match o with Some a => Ok a | None => Raise e end.

(** A [for] loop whose body may raise. *)
Fixpoint foldM {S A} (f : S → A → result S) (l : list A) (s : S) : result S :=
  match l with
  | [] => Ok s
  | a :: l' => let* s' := f s a in foldM f l' s'
  end.

Lemma bind_Ok {A B} (r : result A) (k : A → result B) b :
  bind r k = Ok b → ∃ a, r = Ok a ∧ k a = Ok b.
Proof. destruct r; simpl; intros; try discriminate; eauto. Qed.

Lemma foldM_app {S A} (f : S → A → result S) l1 l2 s :
  foldM f (l1 ++ l2) s = (let* s' := foldM f l1 s in foldM f l2 s').
Proof.
  revert s; induction l1 as [|a l1 IH]; intros s; simpl; [done|].
  destruct (f s a); simpl; auto.
Qed.

(** An invariant of the loop state is carried through a [for] loop. *)
Lemma foldM_invariant {S A} (P : S → Prop) (f : S → A → result S) l :
  (∀ s a s', a ∈ l → P s → f s a = Ok s' → P s') →
  ∀ s s', P s → foldM f l s = Ok s' → P s'.
Proof.
  induction l as [|a l IH]; simpl; intros Hf s s' HP H.
  - by inversion H; subst.
  - apply bind_Ok in H as (s1 & H1 & H2).
    eapply IH; [| |exact H2].
    + intros; eapply Hf; [by right| |]; eauto.
    + eapply Hf; [by left| |]; eauto.
Qed.

(* ================================================================= *)
(** * bfs.py *)

Module Chess.

Definition SCREEN_WIDTH : Z := 640.
Definition BOARD_SIZE : Z := 8.
Definition SQUARE_SIZE : Z := SCREEN_WIDTH / BOARD_SIZE.

(** [class Point]: [__eq__] and [__hash__] are structural, so Leibniz
    equality of the record is Python's [==]. *)
Record Point := mkPoint { x : Z; y : Z }.

#[global] Instance Point_eq_dec : EqDecision Point.
Proof. solve_decision. Defined.

#[global] Instance Point_countable : Countable Point.
Proof.
  refine (inj_countable' (λ p, (x p, y p)) (λ q, mkPoint q.1 q.2) _).
  by intros [].
Defined.

(** [PieceType.KNIGHT, ..., PieceType.QUEEN = range(5)] *)
Definition KNIGHT : Z := 0.
Definition KING : Z := 1.
Definition ROOK : Z := 2.
Definition BISHOP : Z := 3.
Definition QUEEN : Z := 4.

Definition KNIGHT_MOVES : list (Z * Z) :=
  [(2, 1); (2, -1); (-2, 1); (-2, -1); (1, 2); (1, -2); (-1, 2); (-1, -2)].

Definition is_on_board (p : Point) : bool :=
  (0 <=? x p) && (x p <? BOARD_SIZE) && (0 <=? y p) && (y p <? BOARD_SIZE).

Definition get_knight_moves (p : Point) : list Point :=
  fold_left (λ neighbors '(dx, dy),
      let n := mkPoint (x p + dx) (y p + dy) in
      if is_on_board n then neighbors ++ [n] else neighbors)
    KNIGHT_MOVES [].

Definition get_king_moves (p : Point) : list Point :=
  fold_left (λ neighbors dx,
      fold_left (λ neighbors dy,
          if (dx =? 0) && (dy =? 0) then neighbors
          else
            let n := mkPoint (x p + dx) (y p + dy) in
            if is_on_board n then neighbors ++ [n] else neighbors)
        [-1; 0; 1] neighbors)
    [-1; 0; 1] [].

(** The [while is_on_board(Point(nx, ny))] loop of [sliding_moves]. *)
Fixpoint ray (fuel : nat) (dx dy nx ny : Z) (neighbors : list Point)
  : result (list Point) :=
  match fuel with
  | O => OutOfFuel
  | S fuel =>
      if is_on_board (mkPoint nx ny)
      then ray fuel dx dy (nx + dx) (ny + dy) (neighbors ++ [mkPoint nx ny])
      else Ok neighbors
  end.

Definition sliding_moves (fuel : nat) (p : Point) (dirs : list (Z * Z))
  : result (list Point) :=
  foldM (λ neighbors '(dx, dy), ray fuel dx dy (x p + dx) (y p + dy) neighbors)
    dirs [].

Definition get_rook_moves (fuel : nat) (p : Point) :=
  sliding_moves fuel p [(1, 0); (-1, 0); (0, 1); (0, -1)].

Definition get_bishop_moves (fuel : nat) (p : Point) :=
  sliding_moves fuel p [(1, 1); (1, -1); (-1, 1); (-1, -1)].

Definition get_queen_moves (fuel : nat) (p : Point) :=
  sliding_moves fuel p
    [(1, 0); (-1, 0); (0, 1); (0, -1); (1, 1); (1, -1); (-1, 1); (-1, -1)].

(** The dictionary [MOVE_FUNCTIONS]; a missing key is a [KeyError]. *)
Definition MOVE_FUNCTIONS (piece : Z) : option (nat → Point → result (list Point)) :=
  if piece =? KNIGHT then Some (λ _ p, Ok (get_knight_moves p))
  else if piece =? KING then Some (λ _ p, Ok (get_king_moves p))
  else if piece =? ROOK then Some get_rook_moves
  else if piece =? BISHOP then Some get_bishop_moves
  else if piece =? QUEEN then Some get_queen_moves
  else None.

(** The attributes of [BFSVisualizer] other than the pygame handles.
    [parents] maps the start square to [None], every other discovered square
    to its predecessor. *)
Record BFSVisualizer := mkVis {
  start_pos : option Point;
  goal_pos : option Point;
  current_piece : Z;
  running_bfs : bool;
  path_found : bool;
  animating_path : bool;
  queue : list Point;
  visited : gset Point;
  parents : gmap Point (option Point);
  edges_explored : list (Point * Point);
  current_node : option Point;
  last_bfs_step_time : float;
  shortest_path : list Point;
  anim_index : Z;
  anim_progress : float;
  render_pos : Z * Z
}.

Definition set_start_pos (v : option Point) (s : BFSVisualizer) : BFSVisualizer :=
  mkVis v (goal_pos s) (current_piece s) (running_bfs s) (path_found s) (animating_path s) (queue s) (visited s) (parents s) (edges_explored s) (current_node s) (last_bfs_step_time s) (shortest_path s) (anim_index s) (anim_progress s) (render_pos s).
Definition set_goal_pos (v : option Point) (s : BFSVisualizer) : BFSVisualizer :=
  mkVis (start_pos s) v (current_piece s) (running_bfs s) (path_found s) (animating_path s) (queue s) (visited s) (parents s) (edges_explored s) (current_node s) (last_bfs_step_time s) (shortest_path s) (anim_index s) (anim_progress s) (render_pos s).
Definition set_current_piece (v : Z) (s : BFSVisualizer) : BFSVisualizer :=
  mkVis (start_pos s) (goal_pos s) v (running_bfs s) (path_found s) (animating_path s) (queue s) (visited s) (parents s) (edges_explored s) (current_node s) (last_bfs_step_time s) (shortest_path s) (anim_index s) (anim_progress s) (render_pos s).
Definition set_running_bfs (v : bool) (s : BFSVisualizer) : BFSVisualizer :=
  mkVis (start_pos s) (goal_pos s) (current_piece s) v (path_found s) (animating_path s) (queue s) (visited s) (parents s) (edges_explored s) (current_node s) (last_bfs_step_time s) (shortest_path s) (anim_index s) (anim_progress s) (render_pos s).
Definition set_path_found (v : bool) (s : BFSVisualizer) : BFSVisualizer :=
  mkVis (start_pos s) (goal_pos s) (current_piece s) (running_bfs s) v (animating_path s) (queue s) (visited s) (parents s) (edges_explored s) (current_node s) (last_bfs_step_time s) (shortest_path s) (anim_index s) (anim_progress s) (render_pos s).
Definition set_animating_path (v : bool) (s : BFSVisualizer) : BFSVisualizer :=
  mkVis (start_pos s) (goal_pos s) (current_piece s) (running_bfs s) (path_found s) v (queue s) (visited s) (parents s) (edges_explored s) (current_node s) (last_bfs_step_time s) (shortest_path s) (anim_index s) (anim_progress s) (render_pos s).
Definition set_queue (v : list Point) (s : BFSVisualizer) : BFSVisualizer :=
  mkVis (start_pos s) (goal_pos s) (current_piece s) (running_bfs s) (path_found s) (animating_path s) v (visited s) (parents s) (edges_explored s) (current_node s) (last_bfs_step_time s) (shortest_path s) (anim_index s) (anim_progress s) (render_pos s).
Definition set_visited (v : gset Point) (s : BFSVisualizer) : BFSVisualizer :=
  mkVis (start_pos s) (goal_pos s) (current_piece s) (running_bfs s) (path_found s) (animating_path s) (queue s) v (parents s) (edges_explored s) (current_node s) (last_bfs_step_time s) (shortest_path s) (anim_index s) (anim_progress s) (render_pos s).
Definition set_parents (v : gmap Point (option Point)) (s : BFSVisualizer) : BFSVisualizer :=
  mkVis (start_pos s) (goal_pos s) (current_piece s) (running_bfs s) (path_found s) (animating_path s) (queue s) (visited s) v (edges_explored s) (current_node s) (last_bfs_step_time s) (shortest_path s) (anim_index s) (anim_progress s) (render_pos s).
Definition set_edges_explored (v : list (Point * Point)) (s : BFSVisualizer) : BFSVisualizer :=
  mkVis (start_pos s) (goal_pos s) (current_piece s) (running_bfs s) (path_found s) (animating_path s) (queue s) (visited s) (parents s) v (current_node s) (last_bfs_step_time s) (shortest_path s) (anim_index s) (anim_progress s) (render_pos s).
Definition set_current_node (v : option Point) (s : BFSVisualizer) : BFSVisualizer :=
  mkVis (start_pos s) (goal_pos s) (current_piece s) (running_bfs s) (path_found s) (animating_path s) (queue s) (visited s) (parents s) (edges_explored s) v (last_bfs_step_time s) (shortest_path s) (anim_index s) (anim_progress s) (render_pos s).
Definition set_last_bfs_step_time (v : float) (s : BFSVisualizer) : BFSVisualizer :=
  mkVis (start_pos s) (goal_pos s) (current_piece s) (running_bfs s) (path_found s) (animating_path s) (queue s) (visited s) (parents s) (edges_explored s) (current_node s) v (shortest_path s) (anim_index s) (anim_progress s) (render_pos s).
Definition set_shortest_path (v : list Point) (s : BFSVisualizer) : BFSVisualizer :=
  mkVis (start_pos s) (goal_pos s) (current_piece s) (running_bfs s) (path_found s) (animating_path s) (queue s) (visited s) (parents s) (edges_explored s) (current_node s) (last_bfs_step_time s) v (anim_index s) (anim_progress s) (render_pos s).
Definition set_anim_index (v : Z) (s : BFSVisualizer) : BFSVisualizer :=
  mkVis (start_pos s) (goal_pos s) (current_piece s) (running_bfs s) (path_found s) (animating_path s) (queue s) (visited s) (parents s) (edges_explored s) (current_node s) (last_bfs_step_time s) (shortest_path s) v (anim_progress s) (render_pos s).
Definition set_anim_progress (v : float) (s : BFSVisualizer) : BFSVisualizer :=
  mkVis (start_pos s) (goal_pos s) (current_piece s) (running_bfs s) (path_found s) (animating_path s) (queue s) (visited s) (parents s) (edges_explored s) (current_node s) (last_bfs_step_time s) (shortest_path s) (anim_index s) v (render_pos s).
Definition set_render_pos (v : Z * Z) (s : BFSVisualizer) : BFSVisualizer :=
  mkVis (start_pos s) (goal_pos s) (current_piece s) (running_bfs s) (path_found s) (animating_path s) (queue s) (visited s) (parents s) (edges_explored s) (current_node s) (last_bfs_step_time s) (shortest_path s) (anim_index s) (anim_progress s) v.

(** [__init__]: the attribute defaults followed by [reset_state()]. *)
Definition init : BFSVisualizer :=
  mkVis None None KNIGHT false false false [] ∅ ∅ [] None 0%float [] 0 0%float
    (- SQUARE_SIZE, - SQUARE_SIZE).

Definition reset_state (s : BFSVisualizer) : BFSVisualizer :=
  mkVis None None (current_piece s) false false false [] ∅ ∅ [] None
    (last_bfs_step_time s) [] 0 0%float (- SQUARE_SIZE, - SQUARE_SIZE).

Definition get_square_coords (p : Point) : Z * Z :=
  (x p * SQUARE_SIZE, y p * SQUARE_SIZE).

(** [start_bfs]. A [Point] has neither [__bool__] nor [__len__], so
    [not self.start_pos] holds exactly when the attribute is [None].
    [now] is the reading of [time.time()]. *)
Definition start_bfs (now : float) (s : BFSVisualizer) : BFSVisualizer :=
  match start_pos s, goal_pos s, running_bfs s with
  | Some st, Some _, false =>
      mkVis (start_pos s) (goal_pos s) (current_piece s)
        true false false
        [st] {[ st ]} {[ st := None ]} [] None
        now [] (anim_index s) (anim_progress s) (render_pos s)
  | _, _, _ => s
  end.

(** [p == other] through [Point.__eq__], which reads [other.x]: comparing
    with [None] raises. *)
Definition Point_eq (p : Point) (other : option Point) : result bool :=
  match other with
  | Some q => Ok (bool_decide (p = q))
  | None => Raise AttributeError
  end.

(** [self.parents.get(curr)]: [None] for a missing key as for the start. *)
Definition parents_get (parents : gmap Point (option Point)) (curr : Point)
  : option Point :=
  from_option id None (parents !! curr).

(** The [while curr is not None] loop of [reconstruct_path]. *)
Fixpoint backtrack (fuel : nat) (parents : gmap Point (option Point))
    (start : option Point) (curr : option Point) (temp_path : list Point)
  : result (list Point) :=
  match curr with
  | None => Ok temp_path
  | Some c =>
      match fuel with
      | O => OutOfFuel
      | S fuel =>
          let temp_path := temp_path ++ [c] in
          let* stop := Point_eq c start in
          if (stop : bool) then Ok temp_path
          else backtrack fuel parents start (parents_get parents c) temp_path
      end
  end.

Definition reconstruct_path (fuel : nat) (s : BFSVisualizer) : result BFSVisualizer :=
  let* temp_path := backtrack fuel (parents s) (start_pos s) (goal_pos s) [] in
  Ok (set_shortest_path (reverse temp_path) s).

(** The body of [for neighbor in neighbors] in [step_bfs]. *)
Definition discover (current : Point) (s : BFSVisualizer) (neighbor : Point)
  : BFSVisualizer :=
  if bool_decide (neighbor ∈ visited s) then s
  else
    let s := set_visited ({[ neighbor ]} ∪ visited s) s in
    let s := set_parents (<[ neighbor := Some current ]> (parents s)) s in
    let s := set_queue (queue s ++ [neighbor]) s in
    set_edges_explored (edges_explored s ++ [(current, neighbor)]) s.

Definition step_bfs (fuel : nat) (s : BFSVisualizer) : result BFSVisualizer :=
  match queue s with
  | [] => Ok (set_running_bfs false s)
  | current :: rest =>
      let s := set_queue rest s in
      let s := set_current_node (Some current) s in
      let* found := Point_eq current (goal_pos s) in
      if (found : bool) then
        let* s := reconstruct_path fuel s in
        let s := set_running_bfs false s in
        let s := set_path_found true s in
        let s := set_animating_path true s in
        let s := set_anim_index 0 s in
        let s := set_anim_progress 0%float s in
        let* first := lift IndexError (head (shortest_path s)) in
        Ok (set_render_pos (get_square_coords first) s)
      else
        let* move_func := lift KeyError (MOVE_FUNCTIONS (current_piece s)) in
        let* neighbors := move_func fuel current in
        Ok (fold_left (discover current) neighbors s)
  end.

(** [handle_mouse_click]: [pos] is the pixel position of the click. *)
Definition handle_mouse_click (pos : Z * Z) (s : BFSVisualizer) : BFSVisualizer :=
  let col := pos.1 / SQUARE_SIZE in
  let row := pos.2 / SQUARE_SIZE in
  let p := mkPoint col row in
  if negb (is_on_board p) then s
  else if path_found s || animating_path s then reset_state s
  else match start_pos s with
       | None => set_render_pos (get_square_coords p) (set_start_pos (Some p) s)
       | Some st =>
           match goal_pos s with
           | None =>
               if negb (bool_decide (p = st)) then set_goal_pos (Some p) s
               else if negb (running_bfs s) then reset_state s else s
           | Some _ => if negb (running_bfs s) then reset_state s else s
           end
       end.

(** pygame's key codes are the ASCII codes of the keys. *)
Definition K_SPACE : Z := 32.
Definition K_r : Z := 114.
Definition K_1 : Z := 49.
Definition K_5 : Z := 53.

Definition handle_key_press (now : float) (key : Z) (s : BFSVisualizer)
  : BFSVisualizer :=
  if key =? K_SPACE then
    match start_pos s, goal_pos s with
    | Some _, Some _ =>
        if negb (running_bfs s) && negb (path_found s) then start_bfs now s else s
    | _, _ => s
    end
  else if key =? K_r then reset_state s
  else if (K_1 <=? key) && (key <=? K_5) then
    let s := set_current_piece (key - K_1) s in
    match start_pos s, goal_pos s with
    | Some st, Some g =>
        set_render_pos (get_square_coords st)
          (set_goal_pos (Some g) (set_start_pos (Some st) (reset_state s)))
    | _, _ => reset_state s
    end
  else s.

(** The search part of the main loop of [run]: [step_bfs] is called again
    and again for as long as [running_bfs] is set (the clock only decides
    when).  The stamp the loop writes to [last_bfs_step_time] after a step
    is a clock reading and is not tracked here. *)
Fixpoint search (steps fuel : nat) (s : BFSVisualizer) : result BFSVisualizer :=
  if running_bfs s then
    match steps with
    | O => OutOfFuel
    | S steps => let* s := step_bfs fuel s in search steps fuel s
    end
  else Ok s.

(** [n] rounds of that loop. *)
Fixpoint advance (fuel n : nat) (s : BFSVisualizer) : BFSVisualizer :=
  match n with
  | O => s
  | S n =>
      if running_bfs s then
        match step_bfs fuel s with
        | Ok s' => advance fuel n s'
        | _ => s
        end
      else s
  end.

(** ** Runs of the search

    A run begins with a [start_bfs] that passes its guard and goes on with
    the steps the main loop takes, one [step_bfs] at a time while
    [running_bfs] is set.  [current_piece] is one of the five piece types:
    it is only ever assigned [PieceType.KNIGHT] or [key - K_1] for a key
    between [K_1] and [K_5]. *)
Inductive run : BFSVisualizer → Prop :=
| run_start now s st g :
    start_pos s = Some st → goal_pos s = Some g → running_bfs s = false →
    is_Some (MOVE_FUNCTIONS (current_piece s)) →
    run (start_bfs now s)
| run_step fuel s s' :
    run s → running_bfs s = true → step_bfs fuel s = Ok s' → run s'.

(** [chain parents st n k]: following [parents] from [k] reaches the start
    square [st] after [n] links. *)
Inductive chain (parents : gmap Point (option Point)) (st : Point)
  : nat → Point → Prop :=
| chain_start : chain parents st 0 st
| chain_link n k p :
    k ≠ st → parents !! k = Some (Some p) → chain parents st n p →
    chain parents st (S n) k.

(** The squares put on the queue so far, in order: the start square, then the
    child of every explored edge. *)
Definition enqueued (st : Point) (s : BFSVisualizer) : list Point :=
  st :: (edges_explored s).*2.

Definition inv (s : BFSVisualizer) : Prop :=
  ∃ st g done,
    start_pos s = Some st ∧ goal_pos s = Some g ∧
    enqueued st s = done ++ queue s ∧
    NoDup (done ++ queue s) ∧
    visited s = list_to_set (done ++ queue s) ∧
    dom (parents s) = visited s ∧
    (∀ k, k ∈ visited s → ∃ n, chain (parents s) st n k).

(** The attributes a step leaves alone while it expands a square. *)
Definition frame (s : BFSVisualizer) :=
  (start_pos s, goal_pos s, current_piece s, running_bfs s, path_found s,
   animating_path s, current_node s, last_bfs_step_time s, shortest_path s,
   anim_index s, anim_progress s, render_pos s).

(** What the expansion loop of [step_bfs] does: the squares [new] that were
    not visited yet are, in the order of [neighbors] and each once, added to
    [visited], given [current] as parent, queued and logged. *)
Lemma expand_spec current neighbors s :
  dom (parents s) = visited s →
  let s' := fold_left (discover current) neighbors s in
  ∃ new,
    queue s' = queue s ++ new ∧
    visited s' = visited s ∪ list_to_set new ∧
    NoDup new ∧
    (∀ p, p ∈ new → (p ∉ visited s) ∧ (p ∈ neighbors)) ∧
    edges_explored s' = edges_explored s ++ ((λ p, (current, p)) <$> new) ∧
    parents s ⊆ parents s' ∧
    (∀ p, p ∈ new → parents s' !! p = Some (Some current)) ∧
    dom (parents s') = visited s' ∧
    frame s' = frame s.
Proof.
  revert s; induction neighbors as [|n l IH]; intros s Hdom; cbn [fold_left].
  - exists []. rewrite !app_nil_r. simpl. split_and!; try done.
    + set_solver.
    + constructor.
    + by intros p Hp%elem_of_nil.
    + by intros p Hp%elem_of_nil.
  - destruct (decide (n ∈ visited s)) as [Hn|Hn].
    + replace (discover current s n) with s
        by (unfold discover; by rewrite bool_decide_eq_true_2).
      destruct (IH s Hdom) as (new & Hq & Hv & Hnd & Hnew & He & Hp & Hpn & Hd & Hf).
      exists new. split_and!; try done.
      intros p Hin. split; [by apply Hnew|]. right. by apply Hnew.
    + set (s1 := discover current s n).
      assert (queue s1 = queue s ++ [n] ∧ visited s1 = {[n]} ∪ visited s ∧
              parents s1 = <[n:=Some current]> (parents s) ∧
              edges_explored s1 = edges_explored s ++ [(current, n)] ∧
              frame s1 = frame s) as (Hq1 & Hv1 & Hp1 & He1 & Hf1).
      { unfold s1, discover. by rewrite bool_decide_eq_false_2. }
      clearbody s1.
      assert (Hdom1 : dom (parents s1) = visited s1).
      { rewrite Hp1, Hv1, dom_insert_L. by rewrite Hdom. }
      destruct (IH s1 Hdom1) as (new & Hq & Hv & Hnd & Hnew & He & Hp & Hpn & Hd & Hf).
      assert (Hfresh : n ∉ new).
      { intros Hin. apply Hnew in Hin as [Hin _]. set_solver. }
      exists (n :: new). split_and!.
      * by rewrite Hq, Hq1, <- app_assoc.
      * rewrite Hv, Hv1. set_solver.
      * by constructor.
      * intros p [->|Hin]%elem_of_cons; [split; [done|by left]|].
        apply Hnew in Hin as [Hin Hl]. split; [set_solver|by right].
      * by rewrite He, He1, <- app_assoc.
      * etrans; [|exact Hp]. rewrite Hp1. apply insert_subseteq.
        apply not_elem_of_dom. by rewrite Hdom.
      * intros p [->|Hin]%elem_of_cons; [|by apply Hpn].
        eapply lookup_weaken; [|exact Hp]. rewrite Hp1. apply lookup_insert_eq.
      * done.
      * by rewrite Hf.
Qed.

Lemma chain_weaken parents parents' st n k :
  parents ⊆ parents' → chain parents st n k → chain parents' st n k.
Proof.
  intros Hsub; induction 1; [constructor|].
  econstructor; eauto. eapply lookup_weaken; eauto.
Qed.

Lemma start_bfs_inv now s st g :
  start_pos s = Some st → goal_pos s = Some g → running_bfs s = false →
  inv (start_bfs now s).
Proof.
  intros Hs Hg Hr. unfold start_bfs. rewrite Hs, Hg, Hr.
  exists st, g, []. simpl. repeat split; try done.
  - apply NoDup_singleton.
  - set_solver.
  - by rewrite dom_singleton_L.
  - intros k ->%elem_of_singleton. exists 0%nat. constructor.
Qed.

(** The three ways [step_bfs] returns: on an empty queue, on the goal, and
    after expanding a square other than the goal. *)
Definition goal_step (path : list Point) (first : Point) (s : BFSVisualizer) :=
  set_render_pos (get_square_coords first)
    (set_anim_progress 0%float
       (set_anim_index 0
          (set_animating_path true
             (set_path_found true
                (set_running_bfs false (set_shortest_path (reverse path) s)))))).

Lemma step_bfs_Ok fuel s s' :
  step_bfs fuel s = Ok s' →
  (queue s = [] ∧ s' = set_running_bfs false s) ∨
  (∃ c rest path first,
      queue s = c :: rest ∧ goal_pos s = Some c ∧
      backtrack fuel (parents s) (start_pos s) (Some c) [] = Ok path ∧
      head (reverse path) = Some first ∧
      s' = goal_step path first (set_current_node (Some c) (set_queue rest s))) ∨
  (∃ c rest g move_func neighbors,
      queue s = c :: rest ∧ goal_pos s = Some g ∧ c ≠ g ∧
      MOVE_FUNCTIONS (current_piece s) = Some move_func ∧
      move_func fuel c = Ok neighbors ∧
      s' = fold_left (discover c) neighbors
             (set_current_node (Some c) (set_queue rest s))).
Proof.
  unfold step_bfs. destruct (queue s) as [|c rest] eqn:Hq.
  - intros [= <-]. by left.
  - cbn [goal_pos set_current_node set_queue].
    destruct (goal_pos s) as [g|] eqn:Hg; [|discriminate]. cbn [Point_eq bind].
    case_bool_decide as Hc.
    + subst g. unfold reconstruct_path.
      cbn [parents start_pos goal_pos set_current_node set_queue]. rewrite Hg.
      destruct (backtrack _ _ _ _ _) as [path| |] eqn:Hb; [|discriminate..].
      cbn [bind shortest_path set_shortest_path set_running_bfs set_path_found
             set_animating_path set_anim_index set_anim_progress].
      destruct (head (reverse path)) as [first|] eqn:Hh; [|discriminate].
      intros [= <-]. right; left. by exists c, rest, path, first.
    + cbn [current_piece].
      destruct (MOVE_FUNCTIONS _) as [f|] eqn:Hm; [|discriminate]. cbn [lift bind].
      destruct (f fuel c) as [nbrs| |] eqn:Hf; [|discriminate..].
      intros [= <-]. right; right. by exists c, rest, g, f, nbrs.
Qed.

Lemma step_bfs_inv fuel s s' : inv s → step_bfs fuel s = Ok s' → inv s'.
Proof.
  intros (st & g & done & Hst & Hg & Hlog & Hnd & Hvis & Hdom & Hch) Hstep.
  apply step_bfs_Ok in Hstep
    as [[Hq ->]|[(c & rest & path & first & Hq & _ & _ & _ & ->)
                |(c & rest & g' & f & nbrs & Hq & _ & _ & _ & _ & ->)]].
  - by exists st, g, done.
  - exists st, g, (done ++ [c]). rewrite Hq in *. simpl.
    rewrite <- !app_assoc. simpl. split_and!; try done.
  - rewrite Hq in *.
    set (s1 := set_current_node _ _).
    destruct (expand_spec c nbrs s1 Hdom)
      as (new & Hq' & Hv' & Hnd' & Hnew & He' & Hp' & Hpn & Hd' & Hf').
    simpl in Hq', Hv', Hnew, He', Hp', Hf'.
    injection Hf' as Hf1 Hf2 _. 
    exists st, g, (done ++ [c]). split_and!.
    + by rewrite Hf1.
    + by rewrite Hf2.
    + unfold enqueued in *. rewrite Hq', He', fmap_app, <- list_fmap_compose.
      change (st :: ?l ++ ?k) with ((st :: l) ++ k). rewrite Hlog.
      rewrite <- !app_assoc. simpl. f_equal. f_equal. f_equal.
      by rewrite <- (list_fmap_id new) at 2.
    + rewrite Hq', <- app_assoc. simpl.
      change (c :: rest ++ new) with ((c :: rest) ++ new). rewrite app_assoc.
      apply NoDup_app. split_and!; [done| |done].
      intros p Hin Hin'. apply Hnew in Hin' as [Hin' _]. apply Hin'.
      rewrite Hvis. by apply elem_of_list_to_set.
    + rewrite Hv', Hq', Hvis, <- app_assoc. simpl. set_solver.
    + done.
    + intros k. rewrite Hv'. intros [Hk|Hk]%elem_of_union.
      * destruct (Hch k Hk) as [n Hn]. exists n. by eapply chain_weaken.
      * apply elem_of_list_to_set in Hk.
        assert (Hc : c ∈ visited s) by (rewrite Hvis; set_solver).
        destruct (Hch c Hc) as [n Hn]. exists (S n).
        econstructor; [|by apply Hpn|by eapply chain_weaken].
        intros ->. apply Hnew in Hk as [Hk _]. apply Hk.
        rewrite Hvis. apply elem_of_list_to_set. rewrite <- Hlog. by left.
Qed.

Lemma run_inv s : run s → inv s.
Proof.
  induction 1; [by eapply start_bfs_inv|by eapply step_bfs_inv].
Qed.

(** ** The loops return *)

(** A ray leaves the board: if its [k]-th square is off the board, the loop
    of [sliding_moves] has stopped by then. *)
Lemma ray_stops k : ∀ fuel dx dy nx ny neighbors,
  (k < fuel)%nat →
  is_on_board (mkPoint (nx + Z.of_nat k * dx) (ny + Z.of_nat k * dy)) = false →
  ∃ l, ray fuel dx dy nx ny neighbors = Ok l.
Proof.
  induction k as [|k IH]; intros [|fuel] dx dy nx ny acc Hlt Hoff; try lia.
  - simpl in *. rewrite !Z.add_0_r in Hoff. rewrite Hoff. eauto.
  - cbn [ray]. destruct (is_on_board (mkPoint nx ny)); [|eauto].
    apply IH; [lia|].
    by replace (nx + dx + Z.of_nat k * dx) with (nx + Z.of_nat (S k) * dx) by lia;
       replace (ny + dy + Z.of_nat k * dy) with (ny + Z.of_nat (S k) * dy) by lia.
Qed.

(** The directions of the sliding pieces: one step along either axis, not
    both zero. *)
Definition unit_dir (d : Z * Z) : Prop :=
  -1 ≤ d.1 ≤ 1 ∧ -1 ≤ d.2 ≤ 1 ∧ (d.1 ≠ 0 ∨ d.2 ≠ 0).

Lemma off_board_2 nx ny :
  is_on_board (mkPoint nx ny) = false ↔ ¬ (0 ≤ nx < BOARD_SIZE ∧ 0 ≤ ny < BOARD_SIZE).
Proof.
  unfold is_on_board, BOARD_SIZE; simpl.
  destruct (Z.leb_spec 0 nx), (Z.ltb_spec nx 8), (Z.leb_spec 0 ny),
    (Z.ltb_spec ny 8); simpl; split; intros; try done; lia.
Qed.

Lemma ray_total fuel dx dy nx ny neighbors :
  (9 ≤ fuel)%nat → unit_dir (dx, dy) →
  ∃ l, ray fuel dx dy nx ny neighbors = Ok l.
Proof.
  intros Hfuel (Hx & Hy & Hnz); simpl in *.
  destruct (is_on_board (mkPoint nx ny)) eqn:Hon.
  - assert (0 ≤ nx < 8 ∧ 0 ≤ ny < 8) as [Hnx Hny].
    { destruct (decide (0 ≤ nx < BOARD_SIZE ∧ 0 ≤ ny < BOARD_SIZE)) as [|Hn];
        [done|]. apply off_board_2 in Hn. congruence. }
    assert (dx = -1 ∨ dx = 0 ∨ dx = 1) as Hdx by lia.
    assert (dy = -1 ∨ dy = 0 ∨ dy = 1) as Hdy by lia.
    set (k := if decide (dx = 1) then 8 - nx
              else if decide (dx = -1) then nx + 1
              else if decide (dy = 1) then 8 - ny else ny + 1).
    assert (0 ≤ k ≤ 8) as Hk by (unfold k; repeat case_decide; lia).
    apply (ray_stops (Z.to_nat k)); [lia|].
    apply off_board_2. rewrite Z2Nat.id by lia. unfold BOARD_SIZE, k.
    destruct Hdx as [Hdx|[Hdx|Hdx]], Hdy as [Hdy|[Hdy|Hdy]]; subst dx dy;
      repeat case_decide; lia.
  - apply (ray_stops 0); [lia|]. simpl. by rewrite !Z.add_0_r.
Qed.

Lemma sliding_moves_total fuel p dirs :
  (9 ≤ fuel)%nat → Forall unit_dir dirs →
  ∃ l, sliding_moves fuel p dirs = Ok l.
Proof.
  intros Hfuel. unfold sliding_moves. generalize (@nil Point).
  induction dirs as [|[dx dy] dirs IH]; intros acc Hdirs; simpl; [eauto|].
  inversion Hdirs as [|? ? Hd Hrest]; subst.
  destruct (ray_total fuel dx dy (x p + dx) (y p + dy) acc Hfuel Hd) as [l ->].
  simpl. by apply IH.
Qed.

Lemma move_functions_total piece move_func fuel p :
  MOVE_FUNCTIONS piece = Some move_func → (9 ≤ fuel)%nat →
  ∃ l, move_func fuel p = Ok l.
Proof.
  assert (Hdirs : ∀ dirs, Forall (λ d, d ∈ [(1, 0); (-1, 0); (0, 1); (0, -1);
                                            (1, 1); (1, -1); (-1, 1); (-1, -1)]) dirs →
                          Forall unit_dir dirs).
  { intros dirs H. eapply Forall_impl; [exact H|].
    intros [dx dy] Hd. unfold unit_dir. simpl.
    repeat (apply elem_of_cons in Hd as [Hd|Hd]; [injection Hd as -> ->; lia|]).
    by apply elem_of_nil in Hd. }
  unfold MOVE_FUNCTIONS. intros Hm Hfuel.
  destruct (piece =? KNIGHT); [injection Hm as <-; eauto|].
  destruct (piece =? KING); [injection Hm as <-; eauto|].
  destruct (piece =? ROOK);
    [injection Hm as <-; apply sliding_moves_total; [done|]; apply Hdirs;
     repeat (apply Forall_cons; split; [set_solver|]); apply Forall_nil_2|].
  destruct (piece =? BISHOP);
    [injection Hm as <-; apply sliding_moves_total; [done|]; apply Hdirs;
     repeat (apply Forall_cons; split; [set_solver|]); apply Forall_nil_2|].
  destruct (piece =? QUEEN); [|discriminate].
  injection Hm as <-; apply sliding_moves_total; [done|]; apply Hdirs;
    repeat (apply Forall_cons; split; [set_solver|]); apply Forall_nil_2.
Qed.

(** Walking the parent links of a square that is chained to the start ends
    at the start, with one square per link and one for the start. *)
Lemma backtrack_chain parents st n k :
  chain parents st n k →
  ∀ fuel temp_path, (n < fuel)%nat →
  ∃ path, backtrack fuel parents (Some st) (Some k) temp_path = Ok (temp_path ++ path)
          ∧ length path = S n ∧ head path = Some k ∧ last path = Some st.
Proof.
  induction 1 as [|n k p Hne Hp Hch IH]; intros [|fuel] acc Hlt; try lia.
  - exists [st]. simpl. by rewrite bool_decide_eq_true_2.
  - simpl. rewrite bool_decide_eq_false_2 by done.
    unfold parents_get. rewrite Hp. simpl.
    destruct (IH fuel (acc ++ [k])) as (path & -> & Hlen & Hhd & Hlast); [lia|].
    exists (k :: path). rewrite <- app_assoc. split_and!; try done.
    + simpl. by rewrite Hlen.
    + destruct path; [done|]. done.
Qed.

(** [step_bfs] returns in every state of a run, as soon as the fuel covers
    the longest ray and the parent chain of the goal. *)
Lemma step_bfs_total s :
  inv s → is_Some (MOVE_FUNCTIONS (current_piece s)) →
  ∃ fuel0, ∀ fuel, (fuel0 ≤ fuel)%nat → ∃ s', step_bfs fuel s = Ok s'.
Proof.
  intros (st & g & done & Hst & Hg & Hlog & Hnd & Hvis & Hdom & Hch) [f Hf].
  unfold step_bfs. destruct (queue s) as [|c rest] eqn:Hq; [exists 0%nat; eauto|].
  cbn [goal_pos set_current_node set_queue]. rewrite Hg. cbn [Point_eq bind].
  case_bool_decide as Hc.
  - subst c. destruct (Hch g) as [n Hn]. { rewrite Hvis. set_solver. }
    exists (S n). intros fuel Hfuel.
    unfold reconstruct_path.
    cbn [parents start_pos goal_pos set_current_node set_queue].
    rewrite Hst, Hg.
    destruct (backtrack_chain _ _ _ _ Hn fuel []) as (path & -> & Hlen & Hhd & Hlast);
      [lia|].
    cbn [bind shortest_path set_shortest_path set_running_bfs set_path_found
           set_animating_path set_anim_index set_anim_progress app].
    rewrite head_reverse, Hlast. simpl. eauto.
  - exists 9%nat. intros fuel Hfuel. cbn [current_piece set_current_node set_queue].
    rewrite Hf. cbn [lift bind].
    destruct (move_functions_total _ _ fuel c Hf Hfuel) as [l ->]. simpl. eauto.
Qed.

(** A run is in one of three states: running, goal found, or exhausted (the
    queue ran empty and no path was found). *)
Definition phase_ok (s : BFSVisualizer) : Prop :=
  (running_bfs s = true ∧ path_found s = false) ∨
  (running_bfs s = false ∧ path_found s = true) ∨
  (running_bfs s = false ∧ path_found s = false ∧ queue s = []).

Lemma run_phase s :
  run s → phase_ok s ∧ is_Some (MOVE_FUNCTIONS (current_piece s)).
Proof.
  induction 1 as [now s st g Hst Hg Hr Hm|fuel s s' Hrun [IH Hm] Hr Hstep].
  - unfold start_bfs. rewrite Hst, Hg, Hr. split; [by left|done].
  - apply step_bfs_Ok in Hstep
      as [[Hq ->]|[(c & rest & path & first & Hq & _ & _ & _ & ->)
                  |(c & rest & g' & f & nbrs & Hq & Hg & _ & _ & _ & ->)]].
    + split; [|done]. destruct IH as [[_ Hp]|[[? _]|[? _]]]; try congruence.
      right; right. by simpl.
    + split; [|done]. right; left. by simpl.
    + set (s1 := set_current_node _ _).
      assert (Hdom : dom (parents s1) = visited s1).
      { apply run_inv in Hrun as (?&?&?&?&?&?&?&?&?&?). done. }
      destruct (expand_spec c nbrs s1 Hdom) as (new & _ & _ & _ & _ & _ & _ & _ & _ & Hf).
      injection Hf as _ _ Hf3 Hf4 Hf5 _. simpl in *.
      rewrite Hf3. split; [|done].
      destruct IH as [[_ Hp]|[[? _]|[? _]]]; try congruence.
      left. by rewrite Hf4, Hf5.
Qed.

Lemma advance_run fuel n s : run s → run (advance fuel n s).
Proof.
  revert s; induction n as [|n IH]; intros s Hrun; simpl; [done|].
  destruct (running_bfs s) eqn:Hr; [|done].
  destruct (step_bfs fuel s) as [s'| |] eqn:Hstep; [|done..].
  apply IH. by eapply run_step.
Qed.

(** ** Concrete runs on the board *)

(** A fresh visualizer after a click on square (0, 0) and a click at pixel
    [goal_px], with [piece] selected beforehand. *)
Definition chosen (piece : Z) (goal_px : Z * Z) : BFSVisualizer :=
  handle_mouse_click goal_px
    (handle_mouse_click (10, 10) (set_current_piece piece init)).

(** ... and after SPACE was pressed. *)
Definition started (piece : Z) (goal_px : Z * Z) : BFSVisualizer :=
  handle_key_press 0%float K_SPACE (chosen piece goal_px).

Lemma started_run piece goal_px st g :
  start_pos (chosen piece goal_px) = Some st →
  goal_pos (chosen piece goal_px) = Some g →
  running_bfs (chosen piece goal_px) = false →
  path_found (chosen piece goal_px) = false →
  is_Some (MOVE_FUNCTIONS (current_piece (chosen piece goal_px))) →
  run (started piece goal_px).
Proof.
  intros Hst Hg Hr Hp Hm. unfold started, handle_key_press.
  replace (K_SPACE =? K_SPACE) with true by done.
  rewrite Hst, Hg, Hr, Hp. simpl. by eapply run_start.
Qed.

(** [knight_path l]: consecutive squares of [l] are a knight's move apart. *)
Fixpoint knight_path (l : list Point) : Prop :=
  match l with
  | p :: (q :: _) as l' => q ∈ get_knight_moves p ∧ knight_path l'
  | _ => True
  end.

(** *** Claims about [bfs.py] *)

(** C2 (as amended: the board search only).  In every state of a run of the
    board search, the squares queued so far (the start, then the child of
    each explored edge) are pairwise different, they are exactly the visited
    set, and the queue is what is left of them after the dequeued ones, so
    the queue never holds a square twice.  A step adds to [visited] exactly
    the squares it appends to the queue, each of them unvisited before and
    each once; dequeuing adds nothing. *)
Theorem visited_once_at_enqueue s :
  run s →
  ∃ st done,
    start_pos s = Some st ∧
    enqueued st s = done ++ queue s ∧
    NoDup (done ++ queue s) ∧
    visited s = list_to_set (done ++ queue s) ∧
    NoDup (queue s) ∧
    ∀ fuel s', step_bfs fuel s = Ok s' →
      ∃ new,
        queue s' = tail (queue s) ++ new ∧
        enqueued st s' = enqueued st s ++ new ∧
        visited s' = visited s ∪ list_to_set new ∧
        NoDup new ∧ ∀ p, p ∈ new → p ∉ visited s.
Proof.
  intros Hrun. destruct (run_inv s Hrun)
    as (st & g & done & Hst & Hg & Hlog & Hnd & Hvis & Hdom & Hch).
  exists st, done. split_and!; try done.
  { by apply NoDup_app in Hnd as (_ & _ & ?). }
  intros fuel s' Hstep.
  apply step_bfs_Ok in Hstep
    as [[Hq ->]|[(c & rest & path & first & Hq & _ & _ & _ & ->)
                |(c & rest & g' & f & nbrs & Hq & _ & _ & _ & _ & ->)]].
  - exists []. rewrite Hq. simpl. unfold enqueued. simpl.
    rewrite app_nil_r. split_and!; [done..|set_solver|constructor|set_solver].
  - exists []. rewrite Hq. simpl. unfold enqueued. simpl.
    rewrite !app_nil_r. split_and!; [done..|set_solver|constructor|set_solver].
  - set (s1 := set_current_node _ _).
    destruct (expand_spec c nbrs s1 Hdom)
      as (new & Hq' & Hv' & Hnd' & Hnew & He' & _).
    exists new. rewrite Hq. split_and!; try done.
    + unfold enqueued. rewrite He', fmap_app, <- list_fmap_compose. simpl.
      f_equal. f_equal. by rewrite <- (list_fmap_id new) at 2.
    + intros p Hp. by apply Hnew.
Qed.

Lemma visited_once_at_enqueue_witness :
  ∃ st done,
    start_pos (started KNIGHT (90, 170)) = Some st ∧
    enqueued st (started KNIGHT (90, 170)) = done ++ queue (started KNIGHT (90, 170)) ∧
    NoDup (done ++ queue (started KNIGHT (90, 170))) ∧
    visited (started KNIGHT (90, 170)) = list_to_set (done ++ queue (started KNIGHT (90, 170))) ∧
    NoDup (queue (started KNIGHT (90, 170))) ∧
    ∀ fuel s', step_bfs fuel (started KNIGHT (90, 170)) = Ok s' →
      ∃ new,
        queue s' = tail (queue (started KNIGHT (90, 170))) ++ new ∧
        enqueued st s' = enqueued st (started KNIGHT (90, 170)) ++ new ∧
        visited s' = visited (started KNIGHT (90, 170)) ∪ list_to_set new ∧
        NoDup new ∧ ∀ p, p ∈ new → p ∉ visited (started KNIGHT (90, 170)).
Proof.
  apply (visited_once_at_enqueue (started KNIGHT (90, 170))).
  apply (started_run KNIGHT (90, 170) (mkPoint 0 0) (mkPoint 1 2));
    [reflexivity..|]. by eexists.
Defined.

(** The knight search for (1, 2) after two steps: the goal is at the head of
    the queue. *)
Definition goal_in_front : BFSVisualizer := advance 10 2 (started KNIGHT (90, 170)).

(** The same search one step later: the goal was found and squares are still
    queued. *)
Definition goal_found : BFSVisualizer := advance 10 3 (started KNIGHT (90, 170)).

(** The bishop search from (0, 0) for (0, 1), a square of the other colour,
    run until the queue is empty. *)
Definition bishop_exhausted : BFSVisualizer := advance 10 100 (started BISHOP (10, 90)).

Lemma knight_started_run : run (started KNIGHT (90, 170)).
Proof.
  apply (started_run KNIGHT (90, 170) (mkPoint 0 0) (mkPoint 1 2));
    [reflexivity..|]. by eexists.
Qed.

Lemma bishop_started_run : run (started BISHOP (10, 90)).
Proof.
  apply (started_run BISHOP (10, 90) (mkPoint 0 0) (mkPoint 0 1));
    [reflexivity..|]. by eexists.
Qed.

Lemma set_running_bfs_id s : running_bfs s = false → set_running_bfs false s = s.
Proof. destruct s; simpl; by intros ->. Qed.

(** C3, counterexample.  A stepper that has found its goal is not running,
    yet [step_bfs] on it returns normally, dequeues a square and expands
    it. *)
Lemma step_bfs_goal_found_expands :
  running_bfs goal_found = false ∧ path_found goal_found = true ∧
  ∃ s', step_bfs 10 goal_found = Ok s' ∧
        current_node s' = Some (mkPoint 4 2) ∧
        (length (edges_explored goal_found) < length (edges_explored s'))%nat ∧
        s' ≠ goal_found.
Proof.
  split; [reflexivity|]. split; [reflexivity|].
  eexists. split; [vm_compute; reflexivity|].
  split; [reflexivity|]. split; [vm_compute; lia|].
  intros H. apply (f_equal current_node) in H. vm_compute in H. discriminate.
Qed.

(** C3 (as amended).  [step_bfs] has no check of the state and no
    [InvalidStateError]: on a stepper of a run that is no longer running it
    returns normally.  When the run is exhausted (not running, no path
    found) the queue is empty and [step_bfs] changes nothing.  What keeps a
    stepper that is not running from being stepped is the main loop, which
    calls [step_bfs] only while [running_bfs] is set. *)
Theorem step_bfs_when_not_running s :
  run s → running_bfs s = false →
  (∃ fuel0, ∀ fuel, (fuel0 ≤ fuel)%nat → ∃ s', step_bfs fuel s = Ok s') ∧
  (path_found s = false → queue s = [] ∧ ∀ fuel, step_bfs fuel s = Ok s) ∧
  (∀ steps fuel, search steps fuel s = Ok s).
Proof.
  intros Hrun Hr. destruct (run_phase s Hrun) as [Hph Hm]. split_and!.
  - by apply step_bfs_total; [apply run_inv|].
  - intros Hp. destruct Hph as [[? _]|[[_ ?]|(_ & _ & Hq)]]; try congruence.
    split; [done|]. intros fuel. unfold step_bfs. rewrite Hq.
    by rewrite set_running_bfs_id.
  - intros [|steps] fuel; simpl; by rewrite Hr.
Qed.

Lemma step_bfs_when_not_running_witness :
  (∃ fuel0, ∀ fuel, (fuel0 ≤ fuel)%nat →
            ∃ s', step_bfs fuel bishop_exhausted = Ok s') ∧
  (path_found bishop_exhausted = false →
   queue bishop_exhausted = [] ∧ ∀ fuel, step_bfs fuel bishop_exhausted = Ok bishop_exhausted) ∧
  (∀ steps fuel, search steps fuel bishop_exhausted = Ok bishop_exhausted).
Proof.
  apply (step_bfs_when_not_running bishop_exhausted).
  - apply advance_run, bishop_started_run.
  - vm_compute. reflexivity.
Defined.

(** C4, counterexample.  The exhausted bishop search never discovered its
    goal (0, 1); [reconstruct_path] on it returns normally and stores the
    one-square path [[(0, 1)]]. *)
Lemma reconstruct_path_undiscovered_goal :
  running_bfs bishop_exhausted = false ∧ queue bishop_exhausted = [] ∧
  goal_pos bishop_exhausted = Some (mkPoint 0 1) ∧
  parents bishop_exhausted !! mkPoint 0 1 = None ∧
  reconstruct_path 10 bishop_exhausted
  = Ok (set_shortest_path [mkPoint 0 1] bishop_exhausted).
Proof. split_and!; vm_compute; reflexivity. Qed.

(** C4 (as amended).  There is no [UnreachablePathError]: for a goal that is
    not a key of [parents], [reconstruct_path] returns normally and sets
    [shortest_path] to the sequence holding the goal alone.  (The program
    calls it only from [step_bfs], for a goal that was just dequeued.) *)
Theorem reconstruct_path_not_a_key fuel s st g :
  start_pos s = Some st → goal_pos s = Some g → parents s !! g = None →
  reconstruct_path (S fuel) s = Ok (set_shortest_path [g] s).
Proof.
  intros Hst Hg Hp. unfold reconstruct_path. rewrite Hst, Hg. simpl.
  case_bool_decide; [done|].
  unfold parents_get. rewrite Hp. simpl. by destruct fuel.
Qed.

Lemma reconstruct_path_not_a_key_witness :
  reconstruct_path 1 bishop_exhausted
  = Ok (set_shortest_path [mkPoint 0 1] bishop_exhausted).
Proof.
  apply (reconstruct_path_not_a_key 0 bishop_exhausted (mkPoint 0 0) (mkPoint 0 1));
    vm_compute; reflexivity.
Defined.

(** C8.  When a step of a run dequeues the goal, [step_bfs] returns (given
    fuel for the walk back along the parents), the run is in the goal-found
    state afterwards, and the step only took the goal off the queue: the
    visited set, the parents and the explored edges are as before and
    nothing was queued. *)
Theorem goal_dequeued_no_expansion s g rest :
  run s → queue s = g :: rest → goal_pos s = Some g →
  (∃ fuel0, ∀ fuel, (fuel0 ≤ fuel)%nat → ∃ s', step_bfs fuel s = Ok s') ∧
  ∀ fuel s', step_bfs fuel s = Ok s' →
    running_bfs s' = false ∧ path_found s' = true ∧ current_node s' = Some g ∧
    queue s' = rest ∧ visited s' = visited s ∧ parents s' = parents s ∧
    edges_explored s' = edges_explored s.
Proof.
  intros Hrun Hq Hg. split.
  - apply step_bfs_total; [by apply run_inv|by apply run_phase].
  - intros fuel s' Hstep.
    apply step_bfs_Ok in Hstep
      as [[Hq' ->]|[(c & rest' & path & first & Hq' & _ & _ & _ & ->)
                   |(c & rest' & g' & f & nbrs & Hq' & Hg' & Hne & _)]];
      rewrite Hq in Hq'; simplify_eq; done.
Qed.

Lemma goal_dequeued_no_expansion_witness :
  (∃ fuel0, ∀ fuel, (fuel0 ≤ fuel)%nat → ∃ s', step_bfs fuel goal_in_front = Ok s') ∧
  ∀ fuel s', step_bfs fuel goal_in_front = Ok s' →
    running_bfs s' = false ∧ path_found s' = true ∧
    current_node s' = Some (mkPoint 1 2) ∧
    queue s' = tail (queue goal_in_front) ∧
    visited s' = visited goal_in_front ∧ parents s' = parents goal_in_front ∧
    edges_explored s' = edges_explored goal_in_front.
Proof.
  apply (goal_dequeued_no_expansion goal_in_front (mkPoint 1 2)
           (tail (queue goal_in_front))).
  - apply advance_run, knight_started_run.
  - vm_compute. reflexivity.
  - vm_compute. reflexivity.
Defined.

(** C10.  [start_bfs] with no start square, no goal square, or a search
    already running returns at once: no attribute of the visualizer
    changes. *)
Theorem start_bfs_guard now s :
  start_pos s = None ∨ goal_pos s = None ∨ running_bfs s = true →
  start_bfs now s = s.
Proof.
  unfold start_bfs. intros [H|[H|H]]; rewrite H; [done| |].
  - by destruct (start_pos s).
  - by destruct (start_pos s), (goal_pos s).
Qed.

Lemma start_bfs_guard_witness :
  start_bfs 1%float init = init ∧
  start_bfs 1%float (started KNIGHT (90, 170)) = started KNIGHT (90, 170).
Proof.
  split.
  - apply (start_bfs_guard 1%float init). left. reflexivity.
  - apply (start_bfs_guard 1%float (started KNIGHT (90, 170))).
    right. right. reflexivity.
Defined.

Lemma knight_moves_corner p :
  p ∈ get_knight_moves (mkPoint 0 0) → p = mkPoint 2 1 ∨ p = mkPoint 1 2.
Proof.
  change (get_knight_moves (mkPoint 0 0)) with [mkPoint 2 1; mkPoint 1 2].
  set_solver.
Qed.

(** C7.  With the knight on (0, 0), the search for (1, 2) ends with a path
    of two squares and the search for (0, 1) with a path of four squares;
    both are knight paths from the start to the goal, and no knight path
    between these squares has fewer squares (one move and three moves). *)
Theorem knight_shortest_paths :
  (∃ s, search 64 9 (started KNIGHT (90, 170)) = Ok s ∧ path_found s = true ∧
        length (shortest_path s) = 2%nat ∧
        head (shortest_path s) = Some (mkPoint 0 0) ∧
        last (shortest_path s) = Some (mkPoint 1 2) ∧
        knight_path (shortest_path s)) ∧
  (∃ s, search 64 9 (started KNIGHT (10, 90)) = Ok s ∧ path_found s = true ∧
        length (shortest_path s) = 4%nat ∧
        head (shortest_path s) = Some (mkPoint 0 0) ∧
        last (shortest_path s) = Some (mkPoint 0 1) ∧
        knight_path (shortest_path s)) ∧
  (∀ l, knight_path l → head l = Some (mkPoint 0 0) →
        last l = Some (mkPoint 1 2) → (2 ≤ length l)%nat) ∧
  (∀ l, knight_path l → head l = Some (mkPoint 0 0) →
        last l = Some (mkPoint 0 1) → (4 ≤ length l)%nat).
Proof.
  split_and!.
  - eexists. split; [vm_compute; reflexivity|].
    split_and!; try reflexivity. simpl. split; [|done].
    apply list_elem_of_In. vm_compute. tauto.
  - eexists. split; [vm_compute; reflexivity|].
    split_and!; try reflexivity. simpl.
    split_and!; try done; apply list_elem_of_In; vm_compute; tauto.
  - intros [|a [|b l]] _ Hh Hl; simpl in *; simplify_eq; lia.
  - intros [|a [|b [|c [|d l]]]] Hk Hh Hl; simpl in *; simplify_eq; try lia.
    + destruct Hk as [Hk _]. apply knight_moves_corner in Hk as [?|?]; done.
    + destruct Hk as (Hb & Hc & _).
      apply knight_moves_corner in Hb as [-> | ->];
        apply list_elem_of_In in Hc; vm_compute in Hc;
        repeat destruct Hc as [Hc|Hc]; done.
Qed.

(** ** The order on squares *)

(** [Point.__lt__]: by column, then by row. *)
Definition Point_lt (p other : Point) : bool :=
  if negb (x p =? x other) then x p <? x other else y p <? y other.

(** ** The moves of the pieces *)

(** A square of the board, by number. *)
Definition square (i : nat) : Point := mkPoint (Z.of_nat (i / 8)) (Z.of_nat (i mod 8)).

Definition squares : list Point := square <$> seq 0 64.

Lemma on_board_square p : is_on_board p = true → p ∈ squares.
Proof.
  intros Hp. destruct p as [px py].
  assert (0 ≤ px < 8 ∧ 0 ≤ py < 8) as [Hx Hy].
  { destruct (decide (0 ≤ px < BOARD_SIZE ∧ 0 ≤ py < BOARD_SIZE)) as [|Hn]; [done|].
    apply off_board_2 in Hn. congruence. }
  apply list_elem_of_fmap. exists (Z.to_nat (px * 8 + py)). split.
  - unfold square. f_equal.
    + rewrite Nat2Z.inj_div, Z2Nat.id by lia. simpl.
      rewrite Z.div_add_l by lia. rewrite Z.div_small by lia. lia.
    + rewrite Nat2Z.inj_mod, Z2Nat.id by lia. simpl.
      rewrite Z.add_comm, Z.mod_add by lia. rewrite Z.mod_small by lia. lia.
  - apply elem_of_seq. lia.
Qed.

(** The result of the ray loop does not depend on the fuel it was given. *)
Lemma ray_fuel f1 : ∀ f2 dx dy nx ny acc l1 l2,
  ray f1 dx dy nx ny acc = Ok l1 → ray f2 dx dy nx ny acc = Ok l2 → l1 = l2.
Proof.
  induction f1 as [|f1 IH]; intros [|f2] dx dy nx ny acc l1 l2; simpl; try done.
  destruct (is_on_board _); [apply IH|congruence].
Qed.

Lemma sliding_moves_fuel f1 f2 p dirs l1 l2 :
  sliding_moves f1 p dirs = Ok l1 → sliding_moves f2 p dirs = Ok l2 → l1 = l2.
Proof.
  unfold sliding_moves. generalize (@nil Point).
  induction dirs as [|[dx dy] dirs IH]; intros acc; simpl; [congruence|].
  intros (a1 & H1 & H1')%bind_Ok (a2 & H2 & H2')%bind_Ok.
  rewrite (ray_fuel _ _ _ _ _ _ _ _ _ H1 H2) in H1'. eauto.
Qed.

Lemma move_func_fuel piece move_func f1 f2 p l1 l2 :
  MOVE_FUNCTIONS piece = Some move_func →
  move_func f1 p = Ok l1 → move_func f2 p = Ok l2 → l1 = l2.
Proof.
  unfold MOVE_FUNCTIONS. intros Hm.
  repeat (destruct (piece =? _); [injection Hm as <-|]); try done;
    try congruence; apply sliding_moves_fuel.
Qed.

(** [q] is one move of [piece] away from [p]. *)
Definition one_move (piece : Z) (p q : Point) : Prop :=
  ∃ move_func fuel l,
    MOVE_FUNCTIONS piece = Some move_func ∧ move_func fuel p = Ok l ∧ q ∈ l.

(** The moves from [p], computed; empty for a number that is no piece. *)
Definition moves_of (piece : Z) (p : Point) : list Point :=
  match MOVE_FUNCTIONS piece with
  | Some move_func =>
      match move_func 9%nat p with Ok l => l | _ => [] end
  | None => []
  end.

Lemma one_move_moves_of piece p q : one_move piece p q ↔ q ∈ moves_of piece p.
Proof.
  unfold one_move, moves_of. split.
  - intros (f & fuel & l & Hm & Hl & Hq). rewrite Hm.
    destruct (move_functions_total piece f 9 p) as [l9 Hl9]; [done|lia|].
    rewrite Hl9. by rewrite <- (move_func_fuel _ _ _ _ _ _ _ Hm Hl Hl9).
  - destruct (MOVE_FUNCTIONS piece) as [f|] eqn:Hf; [|by intros ?%elem_of_nil].
    destruct (f 9%nat p) as [l| |] eqn:Hl; try by intros ?%elem_of_nil.
    intros Hq. by exists f, 9%nat, l.
Qed.

Lemma fold_left_invariant {A B} (Q : A → Prop) (f : A → B → A) l :
  (∀ acc b, b ∈ l → Q acc → Q (f acc b)) → ∀ acc, Q acc → Q (fold_left f l acc).
Proof.
  induction l as [|b l IH]; intros Hf acc Hacc; simpl; [done|].
  apply IH; [intros; apply Hf; [by right|done]|]. apply Hf; [by left|done].
Qed.

(** The squares a piece may be given: on the board, and not the square it
    stands on. *)
Definition target (p : Point) (l : list Point) : Prop :=
  ∀ q, q ∈ l → is_on_board q = true ∧ q ≠ p.

Lemma target_snoc p l q :
  target p l → is_on_board q = true → q ≠ p → target p (l ++ [q]).
Proof.
  intros Hl Hq Hne r [Hr| ->%list_elem_of_singleton]%elem_of_app; [by apply Hl|done].
Qed.

Lemma knight_moves_target p : target p (get_knight_moves p).
Proof.
  unfold get_knight_moves. apply fold_left_invariant; [|by intros q ?%elem_of_nil].
  intros acc [dx dy] Hd Hacc.
  destruct (is_on_board _) eqn:Hon; [|done]. apply target_snoc; [done..|].
  destruct p as [px py]. simpl. intros [= Hx Hy].
  unfold KNIGHT_MOVES in Hd.
  repeat (apply elem_of_cons in Hd as [[= -> ->]|Hd]; [lia|]).
  by apply elem_of_nil in Hd.
Qed.

Lemma king_moves_target p : target p (get_king_moves p).
Proof.
  unfold get_king_moves. apply fold_left_invariant; [|by intros q ?%elem_of_nil].
  intros acc dx Hdx Hacc. apply fold_left_invariant; [|done].
  intros acc' dy Hdy Hacc'.
  destruct ((dx =? 0) && (dy =? 0)) eqn:Hz; [done|].
  destruct (is_on_board _) eqn:Hon; [|done]. apply target_snoc; [done..|].
  destruct p as [px py]. simpl. intros [= Hx Hy].
  assert (dx = 0) as -> by lia. assert (dy = 0) as -> by lia. done.
Qed.

Lemma ray_target p dx dy fuel : ∀ (k : Z) acc l,
  unit_dir (dx, dy) → 1 ≤ k → target p acc →
  ray fuel dx dy (x p + k * dx) (y p + k * dy) acc = Ok l → target p l.
Proof.
  induction fuel as [|fuel IH]; intros k acc l Hd Hk Hacc; simpl; [done|].
  destruct (is_on_board _) eqn:Hon; [|by intros [= <-]].
  replace (x p + k * dx + dx) with (x p + (k + 1) * dx) by lia.
  replace (y p + k * dy + dy) with (y p + (k + 1) * dy) by lia.
  apply IH; [done|lia|]. apply target_snoc; [done..|].
  destruct p as [px py]. simpl. intros [= Hx Hy].
  destruct Hd as (_ & _ & [Hnz|Hnz]); simpl in *; nia.
Qed.

Lemma sliding_moves_target fuel p dirs l :
  Forall unit_dir dirs → sliding_moves fuel p dirs = Ok l → target p l.
Proof.
  intros Hdirs. unfold sliding_moves.
  apply (foldM_invariant (target p)); [|by intros q ?%elem_of_nil].
  intros acc [dx dy] l' Hin Hacc Hray.
  apply (ray_target p dx dy fuel 1 acc l'); [|lia|done|].
  - by eapply (proj1 (Forall_forall _ _) Hdirs).
  - by rewrite !Z.mul_1_l.
Qed.

Lemma queen_dirs_unit dirs :
  dirs ⊆ [(1, 0); (-1, 0); (0, 1); (0, -1); (1, 1); (1, -1); (-1, 1); (-1, -1)] →
  Forall unit_dir dirs.
Proof.
  intros Hsub. apply Forall_forall. intros [dx dy] Hd%Hsub. unfold unit_dir. simpl.
  repeat (apply elem_of_cons in Hd as [[= -> ->]|Hd]; [lia|]).
  by apply elem_of_nil in Hd.
Qed.

Lemma piece_valid piece move_func :
  MOVE_FUNCTIONS piece = Some move_func → piece ∈ [KNIGHT; KING; ROOK; BISHOP; QUEEN].
Proof.
  unfold MOVE_FUNCTIONS. intros Hm.
  destruct (Z.eqb_spec piece KNIGHT) as [->|_]; [set_solver|].
  destruct (Z.eqb_spec piece KING) as [->|_]; [set_solver|].
  destruct (Z.eqb_spec piece ROOK) as [->|_]; [set_solver|].
  destruct (Z.eqb_spec piece BISHOP) as [->|_]; [set_solver|].
  destruct (Z.eqb_spec piece QUEEN) as [->|_]; [set_solver|done].
Qed.

(** The board as a graph: for each of the five pieces, the moves from a
    square of the board lead back. *)
Lemma moves_symmetric_check :
  forallb (λ piece,
      forallb (λ p,
          forallb (λ q, bool_decide (p ∈ moves_of piece q)) (moves_of piece p))
        squares)
    [KNIGHT; KING; ROOK; BISHOP; QUEEN] = true.
Proof. vm_compute. reflexivity. Qed.


Lemma move_func_target piece move_func fuel p l :
  MOVE_FUNCTIONS piece = Some move_func → move_func fuel p = Ok l → target p l.
Proof.
  unfold MOVE_FUNCTIONS. intros Hm Hl.
  destruct (piece =? KNIGHT);
    [injection Hm as <-; injection Hl as <-; apply knight_moves_target|].
  destruct (piece =? KING);
    [injection Hm as <-; injection Hl as <-; apply king_moves_target|].
  repeat (destruct (piece =? _);
          [injection Hm as <-; eapply sliding_moves_target; [|exact Hl];
           apply queen_dirs_unit; set_solver|]).
  done.
Qed.

(** ** More that a run keeps *)

(** A square is no deeper in the parent tree than its place in the order of
    queuing; every queued square but the start is on the board; and every
    parent link is one move of the piece. *)
Definition inv_tree (s : BFSVisualizer) : Prop :=
  ∃ st, start_pos s = Some st ∧
    (∀ i k, enqueued st s !! i = Some k →
            ∃ n, (n ≤ i)%nat ∧ chain (parents s) st n k) ∧
    (∀ k, k ∈ enqueued st s → k = st ∨ is_on_board k = true) ∧
    (∀ k p, parents s !! k = Some (Some p) → one_move (current_piece s) p k).

Lemma step_bfs_inv_tree fuel s s' :
  inv s → inv_tree s → step_bfs fuel s = Ok s' → inv_tree s'.
Proof.
  intros (st & g & done & Hst & Hg & Hlog & Hnd & Hvis & Hdom & Hch)
         (st' & Hst' & Hdepth & Hboard & Hmove) Hstep.
  rewrite Hst in Hst'. injection Hst' as <-.
  apply step_bfs_Ok in Hstep
    as [[Hq ->]|[(c & rest & path & first & Hq & _ & _ & _ & ->)
                |(c & rest & g' & f & nbrs & Hq & _ & _ & Hm & Hf & ->)]].
  - by exists st.
  - by exists st.
  - set (s1 := set_current_node _ _).
    destruct (expand_spec c nbrs s1 Hdom)
      as (new & Hq' & Hv' & Hnd' & Hnew & He' & Hp' & Hpn & Hd' & Hf').
    simpl in Hq', Hv', Hnew, He', Hp'.
    injection Hf' as Hf1 _ Hf3 _.
    assert (Hlog' : enqueued st (fold_left (discover c) nbrs s1) = enqueued st s ++ new).
    { unfold enqueued. rewrite He', fmap_app, <- list_fmap_compose. simpl.
      f_equal. f_equal. by rewrite <- (list_fmap_id new) at 2. }
    assert (Hone : ∀ k, k ∈ new → one_move (current_piece s) c k).
    { intros k Hk. exists f, fuel, nbrs. split_and!; [done..|]. by apply Hnew. }
    exists st. split_and!.
    + by rewrite Hf1.
    + intros i k. rewrite Hlog'. intros Hik.
      apply lookup_app_Some in Hik as [Hik|[Hlen Hik]].
      * destruct (Hdepth i k Hik) as (n & Hn & Hc). exists n. split; [done|].
        by eapply chain_weaken.
      * assert (Hk : k ∈ new) by by eapply list_elem_of_lookup_2.
        destruct (Hdepth (length done) c) as (n & Hn & Hc).
        { rewrite Hlog, Hq. by rewrite list_lookup_middle. }
        exists (S n). split.
        { assert (length done < length (enqueued st s))%nat; [|lia].
          rewrite Hlog, Hq, length_app. simpl. lia. }
        econstructor; [|by apply Hpn|by eapply chain_weaken].
        intros ->. apply Hnew in Hk as [Hk _]. apply Hk.
        rewrite Hvis. apply elem_of_list_to_set. rewrite <- Hlog. by left.
    + intros k. rewrite Hlog'. intros [Hk|Hk]%elem_of_app; [by apply Hboard|].
      right. by eapply (move_func_target _ _ _ _ _ Hm Hf), Hnew.
    + intros k p Hkp. rewrite Hf3. simpl.
      destruct (parents s !! k) as [v|] eqn:Hk.
      * apply Hmove. rewrite Hk. f_equal.
        pose proof (lookup_weaken _ _ _ _ Hk Hp') as Hk'. congruence.
      * assert (Hin : k ∈ dom (parents (fold_left (discover c) nbrs s1)))
          by (apply elem_of_dom; eauto).
        rewrite Hd', Hv' in Hin. apply elem_of_union in Hin as [Hin|Hin].
        { rewrite <- Hdom in Hin. apply elem_of_dom in Hin as [? ?]. congruence. }
        apply elem_of_list_to_set in Hin.
        rewrite (Hpn k Hin) in Hkp. injection Hkp as <-. by apply Hone.
Qed.

Lemma run_inv_tree s : run s → inv_tree s.
Proof.
  induction 1 as [now s st g Hst Hg Hr Hm|fuel s s' Hrun IH Hr Hstep].
  - unfold start_bfs. rewrite Hst, Hg, Hr. exists st. simpl. split_and!; [done|..].
    + intros [|i] k [=]. subst. exists 0%nat. split; [lia|constructor].
    + intros k ->%list_elem_of_singleton. by left.
    + intros k p. rewrite lookup_singleton. case_decide; done.
  - eapply step_bfs_inv_tree; [by apply run_inv|done..].
Qed.


(** No more than 65 squares are ever queued: the start and the 64 of the
    board. *)
Lemma enqueued_bound s st :
  run s → start_pos s = Some st → (length (enqueued st s) ≤ 65)%nat.
Proof.
  intros Hrun Hst.
  destruct (run_inv s Hrun) as (st' & g & done & Hst' & _ & Hlog & Hnd & _).
  destruct (run_inv_tree s Hrun) as (st'' & Hst'' & _ & Hboard & _).
  simplify_eq. rewrite <- Hlog in Hnd.
  change 65%nat with (length (st :: squares)).
  apply submseteq_length, NoDup_submseteq; [done|].
  intros k [->|Hk]%Hboard; [by left|]. right. by apply on_board_square.
Qed.

(** The squares taken off the queue so far. *)
Definition dequeued (s : BFSVisualizer) : nat :=
  (length (edges_explored s) + 1 - length (queue s))%nat.

(** With fuel for the longest ray and the deepest parent chain, every step
    of a run returns. *)
Lemma step_bfs_total_66 fuel s :
  run s → (66 ≤ fuel)%nat → ∃ s', step_bfs fuel s = Ok s'.
Proof.
  intros Hrun Hfuel.
  destruct (run_inv s Hrun) as (st & g & done & Hst & Hg & Hlog & Hnd & Hvis & Hdom & Hch).
  destruct (run_inv_tree s Hrun) as (st' & Hst' & Hdepth & _).
  destruct (run_phase s Hrun) as [_ [f Hf]].
  pose proof (enqueued_bound s st Hrun Hst) as Hbound.
  simplify_eq. unfold step_bfs.
  destruct (queue s) as [|c rest] eqn:Hq; [eauto|].
  cbn [goal_pos set_current_node set_queue]. rewrite Hg. cbn [Point_eq bind].
  case_bool_decide as Hc.
  - subst c. destruct (Hdepth (length done) g) as (n & Hn & Hchain).
    { rewrite Hlog. by rewrite list_lookup_middle. }
    assert (length done < length (enqueued st s))%nat
      by (rewrite Hlog, length_app; simpl; lia).
    unfold reconstruct_path.
    cbn [parents start_pos goal_pos set_current_node set_queue].
    rewrite Hst, Hg.
    destruct (backtrack_chain _ _ _ _ Hchain fuel []) as (path & -> & Hlen & Hhd & Hlast);
      [lia|].
    cbn [bind shortest_path set_shortest_path set_running_bfs set_path_found
           set_animating_path set_anim_index set_anim_progress app].
    rewrite head_reverse, Hlast. simpl. eauto.
  - cbn [current_piece set_current_node set_queue]. rewrite Hf. cbn [lift bind].
    destruct (move_functions_total _ _ fuel c Hf) as [l ->]; [lia|]. simpl. eauto.
Qed.

Lemma search_stopped steps fuel s : running_bfs s = false → search steps fuel s = Ok s.
Proof. intros Hr. destruct steps; simpl; by rewrite Hr. Qed.

Lemma search_Ok fuel : (66 ≤ fuel)%nat → ∀ steps s,
  run s → (66 ≤ steps + dequeued s)%nat →
  ∃ s', search steps fuel s = Ok s' ∧ run s' ∧ running_bfs s' = false.
Proof.
  intros Hfuel steps. induction steps as [|steps IH]; intros s Hrun Hsteps.
  - destruct (running_bfs s) eqn:Hr; [|exists s; by rewrite search_stopped].
    destruct (run_inv s Hrun) as (st & g & done & Hst & _ & Hlog & _).
    pose proof (enqueued_bound s st Hrun Hst) as Hbound.
    unfold dequeued, enqueued in *. simpl in *. rewrite length_fmap in Hbound. lia.
  - destruct (running_bfs s) eqn:Hr; [|exists s; by rewrite search_stopped].
    simpl. rewrite Hr.
    destruct (step_bfs_total_66 fuel s Hrun Hfuel) as [s1 Hs1]. rewrite Hs1. simpl.
    assert (Hrun1 : run s1) by by eapply run_step.
    destruct (run_inv s Hrun) as (st & g & done & Hst & _ & Hlog & _ & _ & Hdom & _).
    pose proof Hs1 as Hcases.
    apply step_bfs_Ok in Hcases
      as [[Hq ->]|[(c & rest & path & first & Hq & _ & _ & _ & ->)
                  |(c & rest & g' & f & nbrs & Hq & _ & _ & _ & _ & ->)]].
    + eexists. by rewrite search_stopped.
    + eexists. by rewrite search_stopped.
    + apply IH; [done|].
      set (s1 := set_current_node _ _) in *.
      destruct (expand_spec c nbrs s1 Hdom) as (new & Hq' & _ & _ & _ & He' & _).
      simpl in Hq', He'. unfold dequeued in *.
      rewrite He', Hq', !length_app, length_fmap. rewrite Hq in Hsteps. simpl in Hsteps.
      assert (length (enqueued st s) = length done + S (length rest))%nat as Hlen
        by (rewrite Hlog, Hq, length_app; done).
      unfold enqueued in Hlen. simpl in Hlen. rewrite length_fmap in Hlen. lia.
Qed.

(** [move_path piece l]: consecutive squares of [l] are one move of [piece]
    apart. *)
Fixpoint move_path (piece : Z) (l : list Point) : Prop :=
  match l with
  | p :: (q :: _) as l' => one_move piece p q ∧ move_path piece l'
  | _ => True
  end.

(** [links parents l]: each square of [l] has the next one as parent. *)
Fixpoint links (parents : gmap Point (option Point)) (l : list Point) : Prop :=
  match l with
  | k :: (p :: _) as l' => parents !! k = Some (Some p) ∧ links parents l'
  | _ => True
  end.

Lemma move_path_snoc piece l p q :
  move_path piece (l ++ [p]) → one_move piece p q → move_path piece (l ++ [p; q]).
Proof.
  induction l as [|a [|b l] IH]; simpl; intros Hl Hpq; [done|tauto|].
  destruct Hl as [Hab Hl]. split; [done|]. by apply IH.
Qed.

Lemma links_reverse piece parents l :
  (∀ k p, parents !! k = Some (Some p) → one_move piece p k) →
  links parents l → move_path piece (reverse l).
Proof.
  intros Hmove. induction l as [|k [|p l] IH]; simpl; [done..|].
  intros [Hkp Hl]. rewrite reverse_cons. specialize (IH Hl).
  rewrite reverse_cons in IH |- *. rewrite <- app_assoc. simpl.
  apply move_path_snoc; [done|]. by apply Hmove.
Qed.

Lemma backtrack_links parents st fuel : ∀ k acc l,
  backtrack fuel parents (Some st) (Some k) acc = Ok l →
  ∃ path, l = acc ++ path ∧ head path = Some k ∧ links parents path.
Proof.
  induction fuel as [|fuel IH]; intros k acc l; simpl; [done|].
  case_bool_decide as Hk; [intros [= <-]; by exists [k]|].
  unfold parents_get. destruct (parents !! k) as [[p|]|] eqn:Hp; simpl.
  - intros (path & -> & Hhd & Hl)%IH. exists (k :: path).
    rewrite <- app_assoc. split_and!; [done..|].
    destruct path as [|p' path]; simplify_eq/=. done.
  - destruct fuel; intros [= <-]; by exists [k].
  - destruct fuel; intros [= <-]; by exists [k].
Qed.

Lemma backtrack_fuel parents start f1 : ∀ f2 curr acc l1 l2,
  backtrack f1 parents start curr acc = Ok l1 →
  backtrack f2 parents start curr acc = Ok l2 → l1 = l2.
Proof.
  induction f1 as [|f1 IH]; intros [|f2] [c|] acc l1 l2; simpl; try congruence.
  destruct (Point_eq c start) as [[]| |]; simpl; try congruence. apply IH.
Qed.


(** ** Breadth first *)

Lemma chain_functional parents st n m k :
  chain parents st n k → chain parents st m k → n = m.
Proof.
  intros Hn. revert m. induction Hn as [|n k p Hne Hp Hn IH]; intros m Hm.
  - by inversion Hm.
  - inversion Hm as [|m' k' p' Hne' Hp' Hm']; subst; [done|].
    rewrite Hp in Hp'. injection Hp' as <-. f_equal. by apply IH.
Qed.

(** While a search runs: the squares were queued in the order of their depth
    in the parent tree; no queued square is more than one level below a
    square still in the queue; and every move from a square that was
    expanded leads to a visited square at most one level below it. *)
Definition inv_levels (s : BFSVisualizer) : Prop :=
  ∀ st done, start_pos s = Some st → enqueued st s = done ++ queue s →
    (∀ i j a b na nb,
        (i ≤ j)%nat → enqueued st s !! i = Some a → enqueued st s !! j = Some b →
        chain (parents s) st na a → chain (parents s) st nb b → (na ≤ nb)%nat) ∧
    (∀ b c nb nc,
        b ∈ enqueued st s → c ∈ queue s →
        chain (parents s) st nb b → chain (parents s) st nc c → (nb ≤ nc + 1)%nat) ∧
    (∀ u v,
        u ∈ done → one_move (current_piece s) u v →
        v ∈ visited s ∧
        ∀ nu nv, chain (parents s) st nu u → chain (parents s) st nv v →
                 (nv ≤ nu + 1)%nat).

Lemma expand_visits current neighbors : ∀ s q,
  q ∈ neighbors → q ∈ visited (fold_left (discover current) neighbors s).
Proof.
  assert (Hmono : ∀ l s q, q ∈ visited s → q ∈ visited (fold_left (discover current) l s)).
  { induction l as [|n l IH]; intros s q Hq; simpl; [done|]. apply IH.
    unfold discover. case_bool_decide; [done|]. simpl. set_solver. }
  induction neighbors as [|n l IH]; intros s q Hq; simpl; [by apply elem_of_nil in Hq|].
  apply elem_of_cons in Hq as [->|Hq]; [|by apply IH].
  apply Hmono. unfold discover. case_bool_decide; [done|]. simpl. set_solver.
Qed.

Lemma expand_inv_levels fuel s c rest g move_func neighbors :
  inv s → inv_levels s →
  queue s = c :: rest → goal_pos s = Some g →
  MOVE_FUNCTIONS (current_piece s) = Some move_func →
  move_func fuel c = Ok neighbors →
  inv_levels (fold_left (discover c) neighbors
                (set_current_node (Some c) (set_queue rest s))).
Proof.
  intros (st & g0 & done & Hst & _ & Hlog & Hnd & Hvis & Hdom & Hch) Hlev Hq Hg Hm Hf.
  destruct (Hlev st done Hst Hlog) as (HM & HW & HN).
  set (s1 := set_current_node _ _).
  destruct (expand_spec c neighbors s1 Hdom)
    as (new & Hq' & Hv' & Hnd' & Hnew & He' & Hp' & Hpn & Hd' & Hf').
  simpl in Hq', Hv', Hnew, He', Hp'. injection Hf' as Hf1 _ Hf3 _.
  set (s' := fold_left (discover c) neighbors s1) in *.
  assert (Hlog' : enqueued st s' = enqueued st s ++ new).
  { unfold enqueued. rewrite He', fmap_app, <- list_fmap_compose. simpl.
    f_equal. f_equal. by rewrite <- (list_fmap_id new) at 2. }
  assert (Hmem : ∀ k, k ∈ enqueued st s ↔ k ∈ visited s).
  { intros k. by rewrite Hvis, Hlog, elem_of_list_to_set. }
  assert (Hcq : c ∈ queue s) by (rewrite Hq; by left).
  assert (Hcv : c ∈ visited s) by (apply Hmem; rewrite Hlog; set_solver).
  assert (Hstv : st ∈ visited s) by (apply Hmem; by left).
  assert (Hold : ∀ k m, k ∈ visited s → chain (parents s') st m k → chain (parents s) st m k).
  { intros k m Hk Hm'. destruct (Hch k Hk) as [n Hn].
    by rewrite (chain_functional _ _ _ _ _ Hm' (chain_weaken _ _ _ _ _ Hp' Hn)). }
  assert (Hfresh : ∀ k m, k ∈ new → chain (parents s') st m k →
                          ∃ nc, m = S nc ∧ chain (parents s) st nc c).
  { intros k m Hk Hm'. inversion Hm' as [|n k' p Hne Hkp Hn]; subst.
    - by apply Hnew in Hk as [Hk _].
    - rewrite (Hpn k Hk) in Hkp. injection Hkp as <-. eauto. }
  intros st' done' Hst' Hsplit. rewrite Hf1, Hst in Hst'. injection Hst' as <-.
  assert (done' = done ++ [c]) as ->.
  { rewrite Hlog', Hlog, Hq', Hq in Hsplit.
    apply (app_inv_tail (rest ++ new)). rewrite <- Hsplit, <- !app_assoc. done. }
  rewrite Hf3. simpl. rewrite Hlog', Hq'. split_and!.
  - intros i j a b na nb Hij Ha Hb Hna Hnb.
    apply lookup_app_Some in Ha as [Ha|[Hi Ha]], Hb as [Hb|[Hj Hb]].
    + apply (HM i j a b); eauto; apply Hold; try done;
        apply Hmem; by eapply list_elem_of_lookup_2.
    + apply list_elem_of_lookup_2 in Hb.
      destruct (Hfresh b nb Hb Hnb) as (nc & -> & Hnc).
      assert (Ha' : a ∈ enqueued st s) by by eapply list_elem_of_lookup_2.
      specialize (HW a c na nc Ha' Hcq (Hold _ _ (proj1 (Hmem a) Ha') Hna) Hnc). lia.
    + apply lookup_lt_Some in Hb. lia.
    + apply list_elem_of_lookup_2 in Ha, Hb.
      destruct (Hfresh a na Ha Hna) as (nc & -> & Hnc).
      destruct (Hfresh b nb Hb Hnb) as (nc' & -> & Hnc').
      by rewrite (chain_functional _ _ _ _ _ Hnc Hnc').
  - intros b c' nb nc' Hb Hc' Hnb Hnc'.
    destruct (Hch c Hcv) as [nc Hnc].
    assert (Hb' : (nb ≤ nc + 1)%nat).
    { apply elem_of_app in Hb as [Hb|Hb].
      - apply (HW b c); try done. apply Hold; [by apply Hmem|done].
      - destruct (Hfresh b nb Hb Hnb) as (n & -> & Hn).
        rewrite (chain_functional _ _ _ _ _ Hn Hnc). lia. }
    apply elem_of_app in Hc' as [Hc'|Hc'].
    + apply list_elem_of_lookup in Hc' as [r Hr].
      assert (Hc'v : c' ∈ visited s).
      { apply Hmem. rewrite Hlog, Hq. apply elem_of_app. right. right.
        by eapply list_elem_of_lookup_2. }
      assert ((nc ≤ nc')%nat); [|lia].
      apply (HM (length done) (length done + S r)%nat c c'); [lia| | |done|by apply Hold].
      * rewrite Hlog, Hq. by rewrite list_lookup_middle.
      * rewrite Hlog, Hq. rewrite lookup_app_r by lia.
        replace (length done + S r - length done)%nat with (S r) by lia. done.
    + destruct (Hfresh c' nc' Hc' Hnc') as (n & -> & Hn).
      rewrite (chain_functional _ _ _ _ _ Hn Hnc). lia.
  - intros u v [Hu| ->%list_elem_of_singleton]%elem_of_app Huv.
    + destruct (HN u v Hu Huv) as [Hv HNd]. split; [rewrite Hv'; set_solver|].
      intros nu nv Hnu Hnv. apply HNd; apply Hold; try done.
      apply Hmem. rewrite Hlog. set_solver.
    + destruct Huv as (f' & fuel' & l' & Hm' & Hl' & Hvl).
      rewrite Hm in Hm'. injection Hm' as <-.
      rewrite (move_func_fuel _ _ _ _ _ _ _ Hm Hl' Hf) in Hvl.
      pose proof (expand_visits c neighbors s1 v Hvl) as Hvv. fold s' in Hvv.
      split; [done|]. intros nu nv Hnu Hnv.
      apply Hold in Hnu; [|done].
      rewrite Hv' in Hvv. apply elem_of_union in Hvv as [Hvv|Hvv].
      * apply (HW v c); try done; [by apply Hmem|by apply Hold].
      * apply elem_of_list_to_set in Hvv.
        destruct (Hfresh v nv Hvv Hnv) as (n & -> & Hn).
        rewrite (chain_functional _ _ _ _ _ Hn Hnu). lia.
Qed.

Lemma run_inv_levels s : run s → running_bfs s = true → inv_levels s.
Proof.
  induction 1 as [now s st g Hst Hg Hr Hm|fuel s s' Hrun IH Hr Hstep].
  - intros _. unfold start_bfs. rewrite Hst, Hg, Hr.
    intros st' done [= <-]. unfold enqueued. simpl. intros Hsplit.
    assert (done = []) as -> by (by destruct done as [|? [|? ?]]).
    assert (Heq : ∀ k n, [st] !! k = Some n → n = st)
      by (intros [|k] n [=]; done).
    split_and!.
    + intros i j a b na nb _ ->%Heq ->%Heq Hna Hnb.
      by rewrite (chain_functional _ _ _ _ _ Hna Hnb).
    + intros b c nb nc ->%list_elem_of_singleton ->%list_elem_of_singleton Hnb Hnc.
      rewrite (chain_functional _ _ _ _ _ Hnb Hnc). lia.
    + by intros u v Hu%elem_of_nil.
  - intros Hr'. specialize (IH Hr).
    apply step_bfs_Ok in Hstep
      as [[Hq ->]|[(c & rest & path & first & Hq & _ & _ & _ & ->)
                  |(c & rest & g' & f & nbrs & Hq & Hg & _ & Hm & Hf & ->)]];
      [done..|].
    eapply expand_inv_levels; eauto using run_inv.
Qed.

Lemma move_path_lookup piece l : ∀ i a b,
  move_path piece l → l !! i = Some a → l !! S i = Some b → one_move piece a b.
Proof.
  induction l as [|p [|q l] IH]; intros [|i] a b Hl Ha Hb; simplify_eq/=; [tauto|].
  destruct Hl as [_ Hl]. by apply (IH i).
Qed.



(** ** The visualizer under its inputs *)

(** The states reached from a fresh visualizer by mouse clicks, key presses
    and the search steps of the main loop.  (The animation of the found
    path, which the main loop runs only when no search is running, is not
    part of this.) *)
Inductive ui : BFSVisualizer → Prop :=
| ui_init : ui init
| ui_click pos s : ui s → ui (handle_mouse_click pos s)
| ui_key now key s : ui s → ui (handle_key_press now key s)
| ui_step fuel s s' :
    ui s → running_bfs s = true → step_bfs fuel s = Ok s' → ui s'.

Definition ui_inv (s : BFSVisualizer) : Prop :=
  0 ≤ current_piece s ≤ 4 ∧
  (∀ st, start_pos s = Some st → is_on_board st = true) ∧
  (∀ g, goal_pos s = Some g →
        is_on_board g = true ∧ ∃ st, start_pos s = Some st ∧ g ≠ st) ∧
  (running_bfs s = true →
   run s ∧ is_Some (goal_pos s) ∧ path_found s = false ∧ animating_path s = false).

Lemma piece_in_range piece : 0 ≤ piece ≤ 4 → is_Some (MOVE_FUNCTIONS piece).
Proof.
  intros Hp. assert (piece = 0 ∨ piece = 1 ∨ piece = 2 ∨ piece = 3 ∨ piece = 4)
    as [->|[->|[->|[->| ->]]]] by lia; by eexists.
Qed.

Lemma reset_state_ui_inv s : 0 ≤ current_piece s ≤ 4 → ui_inv (reset_state s).
Proof. intros Hp. unfold ui_inv, reset_state. simpl. split_and!; try done; lia. Qed.

Lemma step_bfs_frame fuel s s' :
  step_bfs fuel s = Ok s' →
  start_pos s' = start_pos s ∧ goal_pos s' = goal_pos s ∧
  current_piece s' = current_piece s ∧
  (running_bfs s' = true → dom (parents s) = visited s →
   animating_path s' = animating_path s).
Proof.
  intros [[Hq ->]|[(c & rest & path & first & Hq & _ & _ & _ & ->)
                  |(c & rest & g' & f & nbrs & Hq & _ & _ & _ & _ & ->)]]%step_bfs_Ok;
    [done..|].
  set (s1 := set_current_node _ _).
  assert (Hfr : ∀ l s0, start_pos (fold_left (discover c) l s0) = start_pos s0 ∧
                        goal_pos (fold_left (discover c) l s0) = goal_pos s0 ∧
                        current_piece (fold_left (discover c) l s0) = current_piece s0 ∧
                        animating_path (fold_left (discover c) l s0) = animating_path s0).
  { induction l as [|n l IH]; intros s0; simpl; [done|].
    destruct (IH (discover c s0 n)) as (-> & -> & -> & ->).
    unfold discover. by case_bool_decide. }
  destruct (Hfr nbrs s1) as (-> & -> & -> & ->). done.
Qed.

Lemma ui_ui_inv s : ui s → ui_inv s.
Proof.
  induction 1 as [|pos s Hui Hinv|now key s Hui Hinv|fuel s s' Hui Hinv Hrun Hstep];
    try pose proof Hinv as (Hp & Hs & Hg & Hr).
  - unfold ui_inv, init. simpl. split_and!; try done; unfold KNIGHT; lia.
  - unfold handle_mouse_click.
    set (p := mkPoint _ _).
    destruct (is_on_board p) eqn:Hon; simpl; [|done].
    destruct (path_found s || animating_path s) eqn:Hpf;
      [by apply reset_state_ui_inv|].
    apply orb_false_iff in Hpf as [Hpf Han].
    destruct (start_pos s) as [st|] eqn:Hst.
    + destruct (goal_pos s) as [g|] eqn:Hgo.
      * destruct (running_bfs s) eqn:Hrn; simpl;
          [done|by apply reset_state_ui_inv].
      * case_bool_decide as Hpst; simpl.
        { destruct (running_bfs s) eqn:Hrn; simpl;
            [done|by apply reset_state_ui_inv]. }
        unfold ui_inv. simpl. rewrite Hst. split_and!; [lia..|done| |].
        -- intros g [= <-]. split; [done|]. by exists st.
        -- intros Hrn. destruct (Hr Hrn) as (_ & [? ?] & _). done.
    + unfold ui_inv. simpl. split_and!; [lia..| | |].
      * by intros st [= <-].
      * intros g Hgo. destruct (Hg g Hgo) as (_ & st & ? & _). done.
      * intros Hrn. destruct (Hr Hrn) as (_ & [g Hgo] & _).
        destruct (Hg g Hgo) as (_ & st & ? & _). done.
  - unfold handle_key_press.
    destruct (key =? K_SPACE).
    { destruct (start_pos s) as [st|] eqn:Hst; [|done].
      destruct (goal_pos s) as [g|] eqn:Hgo; [|done].
      destruct (running_bfs s) eqn:Hrn; simpl; [done|].
      destruct (path_found s) eqn:Hpf; simpl; [done|].
      assert (Hrun : run (start_bfs now s))
        by (eapply run_start; eauto using piece_in_range).
      revert Hrun. unfold start_bfs. rewrite Hst, Hgo, Hrn. intros Hrun.
      unfold ui_inv. simpl. split_and!; [lia..| | |].
      * intros ? [= <-]. by apply Hs.
      * intros ? [= <-]. destruct (Hg g eq_refl) as (? & st' & [= <-] & ?).
        split; [done|]. by exists st.
      * intros _. split_and!; [done|by eexists|done..]. }
    destruct (key =? K_r); [by apply reset_state_ui_inv|].
    destruct ((K_1 <=? key) && (key <=? K_5)) eqn:Hk; [|done].
    apply andb_true_iff in Hk as [Hk1 Hk5]. apply Z.leb_le in Hk1, Hk5.
    unfold K_1, K_5 in *. simpl.
    destruct (start_pos s) as [st|] eqn:Hst;
      [|apply reset_state_ui_inv; simpl; lia].
    destruct (goal_pos s) as [g|] eqn:Hgo;
      [|apply reset_state_ui_inv; simpl; lia].
    unfold ui_inv. simpl. split_and!; [lia..| | |done].
    + intros ? [= <-]. by apply Hs.
    + intros ? [= <-]. destruct (Hg g eq_refl) as (? & st' & [= <-] & ?).
      split; [done|]. by exists st.
  - destruct (Hr Hrun) as (Hrun' & Hgo & Hpf & Han).
    assert (Hrun1 : run s') by by eapply run_step.
    destruct (step_bfs_frame _ _ _ Hstep) as (Hf1 & Hf2 & Hf3 & Hf4).
    unfold ui_inv. rewrite Hf1, Hf2, Hf3. split_and!; [lia..|done|done|].
    intros Hrn'. split_and!; [done..| |].
    + destruct (run_phase s' Hrun1) as [[[_ ?]|[[? _]|(? & _)]] _]; congruence.
    + rewrite Hf4; [done..|].
      by destruct (run_inv s Hrun') as (?&?&?&?&?&?&?&?&?&?).
Qed.

(** *** More about [bfs.py] *)

(** X1.  [Point.__lt__] is a strict total order that agrees with [__eq__]:
    of [p < q], [p == q] and [q < p] exactly one holds, and [<] is
    transitive. *)
Theorem Point_lt_strict_total :
  (∀ p q, (Point_lt p q = true ∧ p ≠ q ∧ Point_lt q p = false) ∨
          (Point_lt p q = false ∧ p = q ∧ Point_lt q p = false) ∨
          (Point_lt p q = false ∧ p ≠ q ∧ Point_lt q p = true)) ∧
  (∀ p q r, Point_lt p q = true → Point_lt q r = true → Point_lt p r = true).
Proof.
  unfold Point_lt. split.
  - intros [px py] [qx qy]. simpl.
    destruct (Z.eqb_spec px qx), (Z.eqb_spec qx px); try lia; simpl;
      destruct (Z.ltb_spec px qx), (Z.ltb_spec qx px),
               (Z.ltb_spec py qy), (Z.ltb_spec qy py); try lia;
      first [ left; split_and!; [done|intros [= ? ?]; lia|done]
            | right; right; split_and!; [done|intros [= ? ?]; lia|done]
            | right; left; split_and!; [done|f_equal; lia|done] ].
  - intros [px py] [qx qy] [rx ry]. simpl.
    destruct (Z.eqb_spec px qx), (Z.eqb_spec qx rx), (Z.eqb_spec px rx);
      simpl; rewrite ?Z.ltb_lt; lia.
Qed.

(** X2.  Whatever the piece and the square it stands on, on the board or
    not, the squares its move function returns are on the board and differ
    from the square it stands on. *)
Theorem moves_on_board piece p q :
  one_move piece p q → is_on_board q = true ∧ q ≠ p.
Proof.
  intros (move_func & fuel & l & Hm & Hl & Hq).
  by apply (move_func_target piece move_func fuel p l).
Qed.

Lemma moves_on_board_witness :
  is_on_board (mkPoint 5 7) = true ∧ mkPoint 5 7 ≠ mkPoint 2 4.
Proof.
  apply (moves_on_board BISHOP (mkPoint 2 4) (mkPoint 5 7)).
  exists get_bishop_moves, 9%nat. eexists. split; [reflexivity|].
  split; [vm_compute; reflexivity|]. set_solver.
Defined.

(** X3.  The moves are edges of an undirected graph on the board: if a
    piece goes from a square of the board to [q] in one move, it goes from
    [q] back in one move. *)
Theorem one_move_symmetric piece p q :
  is_on_board p = true → one_move piece p q → one_move piece q p.
Proof.
  intros Hp Hpq. pose proof Hpq as (f & _ & _ & Hm%piece_valid & _).
  apply one_move_moves_of in Hpq. apply one_move_moves_of.
  pose proof moves_symmetric_check as Hall.
  rewrite forallb_forall in Hall.
  apply list_elem_of_In, Hall in Hm. rewrite forallb_forall in Hm.
  apply on_board_square, list_elem_of_In, Hm in Hp. rewrite forallb_forall in Hp.
  apply list_elem_of_In, Hp in Hpq. by apply bool_decide_eq_true in Hpq.
Qed.

Lemma one_move_symmetric_witness : one_move ROOK (mkPoint 3 7) (mkPoint 3 0).
Proof.
  apply (one_move_symmetric ROOK (mkPoint 3 0) (mkPoint 3 7)); [reflexivity|].
  exists get_rook_moves, 9%nat. eexists. split; [reflexivity|].
  split; [vm_compute; reflexivity|]. set_solver.
Defined.

(** X4.  Every search on the board ends: from any state of a run, 66 rounds
    of the main loop with fuel 66 suffice for [running_bfs] to be cleared,
    and then either the path was found or the queue is empty. *)
Theorem search_terminates s steps fuel :
  run s → (66 ≤ steps)%nat → (66 ≤ fuel)%nat →
  ∃ s', search steps fuel s = Ok s' ∧ running_bfs s' = false ∧
        (path_found s' = true ∨ (path_found s' = false ∧ queue s' = [])).
Proof.
  intros Hrun Hsteps Hfuel.
  destruct (search_Ok fuel Hfuel steps s Hrun) as (s' & Hs' & Hrun' & Hr'); [lia|].
  exists s'. split_and!; [done..|].
  destruct (run_phase s' Hrun') as [[[? _]|[[_ ?]|(_ & ? & ?)]] _]; [congruence|eauto..].
Qed.

Lemma search_terminates_witness :
  ∃ s', search 66 66 (started BISHOP (10, 90)) = Ok s' ∧ running_bfs s' = false ∧
        (path_found s' = true ∨ (path_found s' = false ∧ queue s' = [])).
Proof.
  apply (search_terminates (started BISHOP (10, 90)) 66 66); [|lia..].
  apply (started_run BISHOP (10, 90) (mkPoint 0 0) (mkPoint 0 1));
    [reflexivity..|]. by eexists.
Defined.

(** X5.  When a step of a run finds the goal, the path it stores leads from
    the start square to the goal, and each of its squares is one move of
    the piece from the one before. *)
Theorem found_path_is_a_walk fuel s s' g rest :
  run s → queue s = g :: rest → goal_pos s = Some g → step_bfs fuel s = Ok s' →
  head (shortest_path s') = start_pos s ∧
  last (shortest_path s') = Some g ∧
  move_path (current_piece s) (shortest_path s').
Proof.
  intros Hrun Hq Hg Hstep.
  destruct (run_inv s Hrun) as (st & g0 & done & Hst & _ & Hlog & _ & Hvis & _ & Hch).
  destruct (run_inv_tree s Hrun) as (st' & Hst' & _ & _ & Hmove).
  simplify_eq.
  apply step_bfs_Ok in Hstep
    as [[Hq' ->]|[(c & rest' & path & first & Hq' & _ & Hback & _ & ->)
                 |(c & rest' & g' & f & nbrs & Hq' & Hg' & Hne & _)]];
    rewrite Hq in Hq'; simplify_eq.
  simpl. rewrite Hst in Hback |- *.
  destruct (Hch c) as [n Hn].
  { rewrite Hvis, Hq. apply elem_of_list_to_set. set_solver. }
  destruct (backtrack_chain _ _ _ _ Hn (S n) []) as (path' & Hback' & _ & Hhd & Hlast);
    [lia|].
  pose proof (backtrack_fuel _ _ _ _ _ _ _ _ Hback Hback') as ->. simpl.
  destruct (backtrack_links _ _ _ _ _ _ Hback) as (path & Heq & _ & Hlinks).
  simpl in Heq. subst path. split_and!.
  - by rewrite head_reverse.
  - by rewrite last_reverse.
  - by eapply links_reverse.
Qed.

Lemma found_path_is_a_walk_witness :
  head (shortest_path goal_found) = start_pos goal_in_front ∧
  last (shortest_path goal_found) = Some (mkPoint 1 2) ∧
  move_path (current_piece goal_in_front) (shortest_path goal_found).
Proof.
  apply (found_path_is_a_walk 10 goal_in_front goal_found (mkPoint 1 2)
           (tail (queue goal_in_front))).
  - apply advance_run, knight_started_run.
  - vm_compute. reflexivity.
  - vm_compute. reflexivity.
  - vm_compute. reflexivity.
Defined.

(** X6.  The path a running search stores when it finds the goal is a
    shortest one: no sequence of squares that starts at the start square,
    ends at the goal and goes by moves of the piece has fewer squares. *)
Theorem found_path_is_shortest fuel s s' st g rest l :
  run s → running_bfs s = true →
  queue s = g :: rest → goal_pos s = Some g → start_pos s = Some st →
  step_bfs fuel s = Ok s' →
  move_path (current_piece s) l → head l = Some st → last l = Some g →
  (length (shortest_path s') ≤ length l)%nat.
Proof.
  intros Hrun Hr Hq Hg Hst Hstep Hl Hhd Hlast.
  destruct (run_inv s Hrun) as (st' & g0 & done & Hst' & _ & Hlog & Hnd & Hvis & _ & Hch).
  simplify_eq.
  destruct (run_inv_levels s Hrun Hr st done Hst Hlog) as (HM & HW & HN).
  assert (Hmem : ∀ k, k ∈ enqueued st s ↔ k ∈ visited s).
  { intros k. by rewrite Hvis, Hlog, elem_of_list_to_set. }
  destruct (Hch g) as [ng Hng].
  { apply Hmem. rewrite Hlog, Hq. apply elem_of_app. right. by left. }
  (* the stored path has one square per level *)
  apply step_bfs_Ok in Hstep
    as [[Hq' ->]|[(c & rest' & path & first & Hq' & _ & Hback & _ & ->)
                 |(c & rest' & g' & f & nbrs & Hq' & Hg' & Hne & _)]];
    rewrite Hq in Hq'; simplify_eq.
  simpl. rewrite Hst in Hback.
  destruct (backtrack_chain _ _ _ _ Hng (S ng) []) as (path' & Hback' & Hlen & _);
    [lia|].
  pose proof (backtrack_fuel _ _ _ _ _ _ _ _ Hback Hback') as ->.
  rewrite length_reverse. simpl. rewrite Hlen.
  (* a visited square above the goal's level was dequeued before it *)
  assert (Hdone : ∀ w n, w ∈ visited s → chain (parents s) st n w → (n < ng)%nat →
                         w ∈ done).
  { intros w n Hw Hn Hlt. apply Hmem in Hw. rewrite Hlog in Hw.
    apply elem_of_app in Hw as [Hw|Hw]; [done|].
    rewrite Hq in Hw. apply list_elem_of_lookup in Hw as [j Hj].
    assert ((ng ≤ n)%nat); [|lia].
    apply (HM (length done) (length done + j)%nat c w); [lia| | |done..].
    - rewrite Hlog, Hq. by rewrite list_lookup_middle.
    - rewrite Hlog, Hq. rewrite lookup_app_r by lia.
      by replace (length done + j - length done)%nat with j by lia. }
  (* the walk stays within the levels *)
  assert (Hwalk : ∀ i w, l !! i = Some w → (i < ng)%nat →
                         w ∈ done ∧ ∃ n, (n ≤ i)%nat ∧ chain (parents s) st n w).
  { induction i as [|i IH]; intros w Hw Hi.
    - assert (w = st) as -> by (destruct l; simplify_eq/=; done).
      assert (chain (parents s) st 0 st) as H0 by constructor.
      split; [|by exists 0%nat].
      apply (Hdone st 0%nat); [apply Hmem; by left|done|lia].
    - destruct (lookup_lt_is_Some_2 l i) as [u Hu].
      { apply lookup_lt_Some in Hw. lia. }
      destruct (IH u Hu) as (Hud & nu & Hnu & Hcu); [lia|].
      pose proof (move_path_lookup _ _ _ _ _ Hl Hu Hw) as Huw.
      destruct (HN u w Hud Huw) as [Hwv Hd].
      destruct (Hch w Hwv) as [nw Hnw].
      specialize (Hd nu nw Hcu Hnw).
      split; [apply (Hdone w nw); [done..|lia]|].
      exists nw. split; [lia|done]. }
  destruct (decide (length l ≤ ng)%nat) as [Hshort|]; [|lia].
  assert (l !! (length l - 1)%nat = Some c) as Hend.
  { rewrite last_lookup in Hlast. by replace (length l - 1)%nat with (pred (length l)) by lia. }
  assert (length l ≠ 0%nat) by (destruct l; simplify_eq/=; done).
  destruct (Hwalk _ _ Hend) as (_ & n & Hn & Hcn); [lia|].
  pose proof (chain_functional _ _ _ _ _ Hcn Hng). lia.
Qed.

Lemma found_path_is_shortest_witness :
  (length (shortest_path goal_found)
   ≤ length [mkPoint 0 0; mkPoint 2 1; mkPoint 0 0; mkPoint 1 2])%nat.
Proof.
  apply (found_path_is_shortest 10 goal_in_front goal_found (mkPoint 0 0) (mkPoint 1 2)
           (tail (queue goal_in_front))).
  - apply advance_run, knight_started_run.
  - vm_compute. reflexivity.
  - vm_compute. reflexivity.
  - vm_compute. reflexivity.
  - vm_compute. reflexivity.
  - vm_compute. reflexivity.
  - cbn [move_path]. split_and!; try done; apply one_move_moves_of;
      apply list_elem_of_In; vm_compute; tauto.
  - reflexivity.
  - reflexivity.
Defined.

(** X7.  Whatever clicks, key presses and search steps a fresh visualizer
    receives: the piece is one of the five; the start and the goal, when
    set, are squares of the board, and the goal is set only with the start
    and differs from it; and whenever [running_bfs] is set the state is one
    of a run, begun by [start_bfs], with no path found yet. *)
Theorem ui_invariant s :
  ui s →
  0 ≤ current_piece s ≤ 4 ∧
  (∀ st, start_pos s = Some st → is_on_board st = true) ∧
  (∀ g, goal_pos s = Some g →
        is_on_board g = true ∧ ∃ st, start_pos s = Some st ∧ g ≠ st) ∧
  (running_bfs s = true → run s ∧ path_found s = false).
Proof.
  intros (Hp & Hs & Hg & Hr)%ui_ui_inv. split_and!; [lia..|done|done|].
  intros Hrn. by destruct (Hr Hrn) as (? & _ & ? & _).
Qed.

Lemma ui_invariant_witness :
  0 ≤ current_piece (handle_key_press 0%float K_SPACE
                       (handle_mouse_click (90, 170)
                          (handle_mouse_click (10, 10)
                             (handle_key_press 0%float 51 init)))) ≤ 4.
Proof.
  apply (ui_invariant (handle_key_press 0%float K_SPACE
                         (handle_mouse_click (90, 170)
                            (handle_mouse_click (10, 10)
                               (handle_key_press 0%float 51 init))))).
  apply ui_key, ui_click, ui_click, ui_key, ui_init.
Defined.

End Chess.

(* ================================================================= *)
(** * tree_diameter.py *)

Module Diameter.

Definition NODE_RADIUS : Z := 15.

(** ** Objects

    [Node] and [Edge] objects are compared by identity (neither class has an
    [__eq__]), and several lists hold the same [Node].  So nodes live in a
    store, a list that only grows, and are named by their index in it.
    [Distance] starts at 0 and is only ever assigned a [Distance + 1], so it
    is a natural number. *)
Record Node := mkNode {
  pos : Z * Z;
  Visited : bool;
  Neighbours : list nat;
  Distance : nat
}.

Record Edge := mkEdge { start : nat; end_ : nat }.

#[global] Instance Edge_eq_dec : EqDecision Edge.
Proof. solve_decision. Defined.

(** [Edge.other_end]: the other end, or [False]. *)
Definition other_end (e : Edge) (node : nat) : option nat :=
  if (node =? end_ e)%nat then Some (start e)
  else if (node =? start e)%nat then Some (end_ e)
  else None.

(** ** The module's globals

    [nodes = List[Node]] and [edges = List[Node]] (lines 45-46) bind both
    names to the typing alias [List[Node]], not to a list, and no statement
    of the module binds either name again: [append], [remove] and [copy]
    are calls of methods of the value.  The functions that use the two names
    are written for lists.  So either kind of value can stand behind the two
    names here, and each operation does on it what Python does. *)
Inductive container (A : Type) :=
| List_Node             (* the alias [typing.List[Node]] *)
| items (l : list A).   (* a list object *)
Arguments List_Node {A}.
Arguments items {A} l.

(** [for x in c].  A list gives its items.  The alias gives one item, the
    unpacked alias [*List[Node]] (CPython 3.11 and later; 3.10 raises
    TypeError at the [for]), which has none of the attributes of a [Node]
    or an [Edge].  Every loop of the module over [nodes] or [edges] begins
    its body by reading or writing an attribute of the item ([edge.start],
    [node.pos], [node.Visited = False]), so on the alias the loop raises
    AttributeError in its first round. *)
Definition iterate {A} (c : container A) : result (list A) :=
  match c with
  | List_Node => Raise AttributeError
  | items l => Ok l
  end.

(** [c.copy()], [c.append(a)] and [c.remove(a)].  The alias passes the read
    of [copy], [append] or [remove] on to the class [list], and the method
    found there is called without a list to act on: TypeError. *)
Definition copy {A} (c : container A) : result (list A) :=
  match c with
  | List_Node => Raise TypeError
  | items l => Ok l
  end.

Definition append {A} (a : A) (c : container A) : result (container A) :=
  match c with
  | List_Node => Raise TypeError
  | items l => Ok (items (l ++ [a]))
  end.

(** The globals (the unused [diameter] apart), and the store of the [Node]
    objects. *)
Record World := mkWorld {
  heap : list Node;
  nodes : container nat;
  edges : container Edge;
  selected_node : option nat;
  long_start : option nat;
  long_end : option nat
}.

(** The globals as the module body leaves them, when it calls [main]. *)
Definition globals : World := mkWorld [] List_Node List_Node None None None.

(** A state in which [nodes] and [edges] are what the module binds them to;
    the objects and the other globals are any. *)
Definition module_state (h : list Node) (selected far_a far_b : option nat) : World :=
  mkWorld h List_Node List_Node selected far_a far_b.

Definition get (h : list Node) (n : nat) : result Node := lift DanglingRef (h !! n).

Definition set_Visited (b : bool) (n : Node) : Node :=
  mkNode (pos n) b (Neighbours n) (Distance n).
Definition set_Distance (d : nat) (n : Node) : Node :=
  mkNode (pos n) (Visited n) (Neighbours n) d.
Definition add_Neighbour (m : nat) (n : Node) : Node :=
  mkNode (pos n) (Visited n) (Neighbours n ++ [m]) (Distance n).

(** [list.remove]: the first equal element goes; [None] when there is none
    (a [ValueError]). *)
Fixpoint list_remove {A} `{EqDecision A} (a : A) (l : list A) : option (list A) :=
  match l with
  | [] => None
  | b :: l' => if decide (b = a) then Some l' else cons b <$> list_remove a l'
  end.

Definition remove {A} `{EqDecision A} (a : A) (c : container A) : result (container A) :=
  match c with
  | List_Node => Raise TypeError
  | items l => let* l := lift ValueError (list_remove a l) in Ok (items l)
  end.

Definition reset_nodes (nodes : list nat) (h : list Node) : result (list Node) :=
  foldM (λ h node,
      let* n := get h node in
      let h := <[node := set_Visited false n]> h in
      let* n := get h node in
      Ok (<[node := set_Distance 0 n]> h))
    nodes h.

(** ** [bfs]

    The state of the loop, with a trace of what an observer of the run sees:
    the distances as they are assigned and the frames drawn, one per
    expanded node ([selected_node = corrent_node; draw()]).  The trace is
    written and never read. *)
Inductive event :=
| SetDistance (node : nat) (d : nat)
| Draw (selected : nat).

Record Loop := mkLoop {
  lheap : list Node;
  qeue : list nat;
  far_node : nat;
  trace : list event
}.

(** The body of [for node in corrent_node.Neighbours]. *)
Definition visit (start corrent : nat) (st : Loop) (node : nat) : result Loop :=
  let qeue := qeue st ++ [node] in
  let* n := get (lheap st) node in
  if (Distance n =? 0)%nat && negb (node =? start)%nat then
    let* c := get (lheap st) corrent in
    let d := (Distance c + 1)%nat in
    let h := <[node := set_Distance d n]> (lheap st) in
    let trace := trace st ++ [SetDistance node d] in
    let* n := get h node in
    let* f := get h (far_node st) in
    if (Distance f <? Distance n)%nat
    then Ok (mkLoop h qeue node trace)
    else Ok (mkLoop h qeue (far_node st) trace)
  else Ok (mkLoop (lheap st) qeue (far_node st) (trace st)).

(** The body of [while(qeue)], entered with a non-empty queue. *)
Definition bfs_iter (start : nat) (st : Loop) : result Loop :=
  match qeue st with
  | [] => Ok st
  | corrent :: _ =>
      let* c := get (lheap st) corrent in
      if Visited c then
        Ok (mkLoop (lheap st) (tail (qeue st)) (far_node st) (trace st))
      else
        let* st := foldM (visit start corrent) (Neighbours c) st in
        let* c := get (lheap st) corrent in
        let h := <[corrent := set_Visited true c]> (lheap st) in
        Ok (mkLoop h (tail (qeue st)) (far_node st) (trace st ++ [Draw corrent]))
  end.

Fixpoint bfs_loop (fuel : nat) (start : nat) (st : Loop) : result Loop :=
  match qeue st with
  | [] => Ok st
  | _ :: _ =>
      match fuel with
      | O => OutOfFuel
      | S fuel => let* st := bfs_iter start st in bfs_loop fuel start st
      end
  end.

(** The state of the loop after at most [n] rounds. *)
Fixpoint bfs_rounds (n : nat) (start : nat) (st : Loop) : result Loop :=
  match n, qeue st with
  | S n, _ :: _ => let* st := bfs_iter start st in bfs_rounds n start st
  | _, _ => Ok st
  end.

Definition bfs_begin (h : list Node) (start : nat) : Loop :=
  mkLoop h [start] start [].

Definition bfs (fuel : nat) (h : list Node) (start : nat)
  : result (list Node * nat * list event) :=
  let* st := bfs_loop fuel start (bfs_begin h start) in
  Ok (lheap st, far_node st, trace st).

(** ** [draw], [find_diameter] and the event handlers of [main] *)

(** [draw] reads [long_end], then every edge of [edges] and every node of
    [nodes], then [selected_node] and [long_start]; the calls into pygame
    are taken to return.  Reading an attribute of a [Node] or an [Edge]
    never fails, so what decides is whether the two loops get their
    items. *)
Definition draw (w : World) : result unit :=
  let* _ := iterate (edges w) in
  let* _ := iterate (nodes w) in
  Ok tt.

(** [bfs(draw, start)] with the outcome of a call of the [draw] it is
    given.  [bfs] above is the search with a [draw] that returns.  With one
    that raises, the search ends in its first round when that round expands
    the start node ([draw()] is the last statement but one of an expansion);
    when the start node is [Visited] already it is only popped, and nothing
    is drawn. *)
Definition bfs_with (draw : result unit) (fuel : nat) (h : list Node) (start : nat)
  : result (list Node * nat * list event) :=
  match draw with
  | Ok _ => bfs fuel h start
  | Raise e =>
      let* c := get h start in
      if Visited c then bfs fuel h start
      else let* _ := bfs_iter start (bfs_begin h start) in Raise e
  | OutOfFuel => OutOfFuel
  end.

(** [find_diameter(draw, selected_node)]; [w] gives the global [nodes] and
    the store. *)
Definition find_diameter (draw : result unit) (fuel : nat) (w : World)
    (selected_node : nat) : result (list Node * (nat * nat)) :=
  let* l := iterate (nodes w) in
  let* h := reset_nodes l (heap w) in
  let* '(h, start, _) := bfs_with draw fuel h selected_node in
  let* l := iterate (nodes w) in
  let* h := reset_nodes l h in
  let* '(h, end_, _) := bfs_with draw fuel h start in
  Ok (h, (start, end_)).

(** [hypot(dx, dy) <= r] for integers [dx], [dy] and [r = 15].  [hypot]
    converts its arguments to [float] and raises OverflowError for an
    integer that rounds to 2^1024 or beyond.  Otherwise the comparison is
    that of the squares: a difference of more than 15 either way puts
    [hypot] above 15 whatever the rounding, smaller differences are
    converted exactly, and [hypot] is exact where the sum of their squares
    is 15 * 15. *)
Definition hypot_le (dx dy r : Z) : result bool :=
  if (2 ^ 1024 - 2 ^ 970 <=? Z.abs dx) || (2 ^ 1024 - 2 ^ 970 <=? Z.abs dy)
  then Raise OverflowError
  else Ok (dx * dx + dy * dy <=? r * r).

(** [hypot(nx - x, ny - y) <= NODE_RADIUS], for a node at [p] and a click
    at [q]. *)
Definition near (p q : Z * Z) : result bool :=
  hypot_le (p.1 - q.1) (p.2 - q.2) NODE_RADIUS.

(** The loop of [get_node_at_pos] over the items of a list. *)
Fixpoint first_near (h : list Node) (l : list nat) (p : Z * Z) : result (option nat) :=
  match l with
  | [] => Ok None
  | node :: l =>
      let* n := get h node in
      let* b := near (pos n) p in
      if b then Ok (Some node) else first_near h l p
  end.

Definition get_node_at_pos (h : list Node) (nodes : container nat) (p : Z * Z)
  : result (option nat) :=
  let* l := iterate nodes in first_near h l p.

(** Left click: add a node. *)
Definition left_click (p : Z * Z) (w : World) : result World :=
  let* at_pos := get_node_at_pos (heap w) (nodes w) p in
  match at_pos with
  | None =>
      let* nodes := append (length (heap w)) (nodes w) in
      Ok (mkWorld (heap w ++ [mkNode p false [] 0]) nodes
            (edges w) (selected_node w) (long_start w) (long_end w))
  | Some _ => Ok w
  end.

(** Right click: select a node, or connect the selected node to the clicked
    one. *)
Definition right_click (p : Z * Z) (w : World) : result World :=
  let* at_pos := get_node_at_pos (heap w) (nodes w) p in
  match at_pos with
  | None => Ok w
  | Some clicked =>
      match selected_node w with
      | None =>
          Ok (mkWorld (heap w) (nodes w) (edges w) (Some clicked)
                (long_start w) (long_end w))
      | Some selected =>
          let* s := get (heap w) selected in
          if bool_decide (clicked ∈ Neighbours s) || (selected =? clicked)%nat then
            Ok (mkWorld (heap w) (nodes w) (edges w) None (long_start w) (long_end w))
          else
            let h := <[selected := add_Neighbour clicked s]> (heap w) in
            let* c := get h clicked in
            let h := <[clicked := add_Neighbour selected c]> h in
            let* edges := append (mkEdge selected clicked) (edges w) in
            Ok (mkWorld h (nodes w) edges None (long_start w) (long_end w))
      end
  end.

(** DELETE: "removing selected node and all of it's edges". *)
Definition key_delete (w : World) : result World :=
  match selected_node w with
  | None => Ok w
  | Some selected =>
      let* snapshot := copy (edges w) in
      let* edges :=
        foldM (λ edges edge,
            match other_end edge selected with
            | Some _ => remove edge edges
            | None => Ok edges
            end)
          snapshot (edges w) in
      let* nodes := remove selected (nodes w) in
      Ok (mkWorld (heap w) nodes edges None (long_start w) (long_end w))
  end.

(** The key r. *)
Definition key_r (w : World) : result World :=
  let* l := iterate (nodes w) in
  let* h := reset_nodes l (heap w) in
  Ok (mkWorld h (nodes w) (edges w) (selected_node w) None None).

(** SPACE; [find_diameter] gets the module's [draw]. *)
Definition key_space (fuel : nat) (w : World) : result World :=
  match selected_node w with
  | None => Ok w
  | Some selected =>
      let* '(h, (a, b)) := find_diameter (draw w) fuel w selected in
      Ok (mkWorld h (nodes w) (edges w) None (Some a) (Some b))
  end.

(** The events that [main] acts on; any other event changes nothing. *)
Inductive input :=
| Quit
| LeftClick (p : Z * Z)
| RightClick (p : Z * Z)
| KeyDelete
| KeyR
| KeySpace.

(** The body of [for event in pygame.event.get()], but for [run = False]. *)
Definition handle (fuel : nat) (w : World) (e : input) : result World :=
  match e with
  | Quit => Ok w
  | LeftClick p => left_click p w
  | RightClick p => right_click p w
  | KeyDelete => key_delete w
  | KeyR => key_r w
  | KeySpace => key_space fuel w
  end.

Definition is_quit (e : input) : bool :=
  match e with Quit => true | _ => false end.

(** [while run]: each turn draws the frame and then handles the events that
    [pygame.event.get()] returns, [frames] being those event lists, turn by
    turn.  The loop is followed until a turn has read a QUIT or the frames
    are used up. *)
Fixpoint main_loop (fuel : nat) (frames : list (list input)) (w : World) : result World :=
  match frames with
  | [] => Ok w
  | es :: frames =>
      let* _ := draw w in
      let* w := foldM (handle fuel) es w in
      if existsb is_quit es then Ok w else main_loop fuel frames w
  end.

(** [main()], as the last line of the module calls it. *)
Definition main (fuel : nat) (frames : list (list input)) : result World :=
  main_loop fuel frames globals.

(** ** Some graphs *)

(** Where node number [i] is: far enough from the others. *)
Definition P (i : nat) : Z * Z := (100 * Z.of_nat i + 100, 100).

(** The store of the path 0 - 1 - 2. *)
Definition path_heap : list Node :=
  [mkNode (P 0) false [1] 0; mkNode (P 1) false [0; 2] 0; mkNode (P 2) false [1] 0]%nat.

(** The store of the star with centre 0 and leaves 1 to 4, the leaves in the
    order [ns] in the centre's list. *)
Definition star_heap (ns : list nat) : list Node :=
  mkNode (P 0) false ns 0 :: ((λ i, mkNode (P i) false [0%nat] 0) <$> seq 1 4).

(** The clicks that would draw that star, and then select the centre and
    start the search. *)
Definition star_inputs : list input :=
  (LeftClick ∘ P <$> seq 0 5) ++
  concat ((λ i, [RightClick (P 0); RightClick (P i)]) <$> seq 1 4) ++
  [RightClick (P 0); KeySpace].

(** ** What [bfs] keeps *)

(** [Distance] of the node a reference names (0 outside the store). *)
Definition dist (h : list Node) (n : nat) : nat :=
  from_option Distance 0%nat (h !! n).

(** The nodes whose [Distance] a run assigned, and the nodes it expanded, in
    order. *)
Definition discovered (tr : list event) : list nat :=
  omap (λ e, match e with SetDistance n _ => Some n | Draw _ => None end) tr.

Definition drawn (tr : list event) : list nat :=
  omap (λ e, match e with Draw n => Some n | SetDistance _ _ => None end) tr.

(** Every reference in a [Neighbours] list names a node of the store. *)
Definition closed (h : list Node) : Prop :=
  Forall (λ node, Forall (λ m, m < length h)%nat (Neighbours node)) h.

(** The part of a node [bfs] only writes when it marks it [Visited]. *)
Definition shape (h : list Node) : list (bool * list nat) :=
  (λ node, (Visited node, Neighbours node)) <$> h.

(** The queue entries still to come: one for every neighbour of every node
    not expanded yet. *)
Definition pending (h : list Node) : nat :=
  sum_list ((λ vn : bool * list nat, if vn.1 then 0 else length vn.2)%nat <$> shape h).

Lemma shape_set_Distance h n node d :
  h !! n = Some node → shape (<[n := set_Distance d node]> h) = shape h.
Proof.
  intros Hn. unfold shape. rewrite list_fmap_insert. apply list_insert_id.
  by rewrite list_lookup_fmap, Hn.
Qed.

Lemma shape_length h h' : shape h = shape h' → length h = length h'.
Proof. intros H. apply (f_equal length) in H. unfold shape in H. by rewrite !length_fmap in H. Qed.

Lemma shape_lookup h h' n node :
  shape h = shape h' → h !! n = Some node →
  ∃ node', h' !! n = Some node' ∧ Visited node' = Visited node ∧
           Neighbours node' = Neighbours node.
Proof.
  intros Hs Hn. apply (f_equal (.!! n)) in Hs. unfold shape in Hs.
  rewrite !list_lookup_fmap, Hn in Hs. simpl in Hs.
  destruct (h' !! n) as [node'|]; simplify_eq/=. eauto.
Qed.

Lemma shape_closed h h' : shape h = shape h' → closed h → closed h'.
Proof.
  intros Hs Hc. unfold closed in *. rewrite <- (shape_length _ _ Hs).
  apply Forall_lookup. intros n node' Hn.
  destruct (shape_lookup h' h n node') as (node & Hn' & _ & <-); [done..|].
  by eapply (proj1 (Forall_lookup _ _) Hc).
Qed.

Lemma dist_insert_ne h n m node : n ≠ m → dist (<[n := node]> h) m = dist h m.
Proof. intros. unfold dist. by rewrite list_lookup_insert_ne. Qed.

Lemma dist_set_Visited h n node b m :
  h !! n = Some node → dist (<[n := set_Visited b node]> h) m = dist h m.
Proof.
  intros Hn. unfold dist. destruct (decide (n = m)) as [->|];
    [|by rewrite list_lookup_insert_ne].
  rewrite list_lookup_insert_eq by by eapply lookup_lt_Some. by rewrite Hn.
Qed.

(** What one pass of the [for] loop does, when it returns. *)
Lemma visit_inv start corrent st node st' :
  visit start corrent st node = Ok st' →
  qeue st' = qeue st ++ [node] ∧
  (((dist (lheap st) node ≠ 0%nat ∨ node = start) ∧
    lheap st' = lheap st ∧ far_node st' = far_node st ∧ trace st' = trace st)
   ∨
   (∃ n c, lheap st !! node = Some n ∧ lheap st !! corrent = Some c ∧
           dist (lheap st) node = 0%nat ∧ node ≠ start ∧
           lheap st' = <[node := set_Distance (Distance c + 1) n]> (lheap st) ∧
           trace st' = trace st ++ [SetDistance node (Distance c + 1)] ∧
           dist (lheap st') node = (Distance c + 1)%nat ∧
           far_node st' = if decide (dist (lheap st') (far_node st) < dist (lheap st') node)%nat
                          then node else far_node st)).
Proof.
  unfold visit, get. destruct (lheap st !! node) as [n|] eqn:Hn; [|done]. cbn [lift bind].
  destruct (Nat.eqb_spec (Distance n) 0) as [Hd|Hd]; cycle 1.
  { intros [= <-]. split; [done|]. left. unfold dist. rewrite Hn. simpl. eauto. }
  destruct (Nat.eqb_spec node start) as [Hs|Hs].
  { intros [= <-]. split; [done|]. left. eauto. }
  cbn [andb negb]. destruct (lheap st !! corrent) as [c|] eqn:Hc; [|done]. cbn [lift bind].
  rewrite list_lookup_insert_eq by by eapply lookup_lt_Some. cbn [lift bind].
  destruct (_ !! far_node st) as [f|] eqn:Hf; [|done]. cbn [lift bind].
  cbn [Distance set_Distance].
  assert (Hdn : dist (<[node:=set_Distance (Distance c + 1) n]> (lheap st)) node
                = (Distance c + 1)%nat).
  { unfold dist. by rewrite list_lookup_insert_eq by by eapply lookup_lt_Some. }
  intros Hst'.
  assert (st' = mkLoop (<[node:=set_Distance (Distance c + 1) n]> (lheap st))
                  (qeue st ++ [node])
                  (if decide (Distance f < Distance c + 1)%nat then node else far_node st)
                  (trace st ++ [SetDistance node (Distance c + 1)])) as ->.
  { destruct (Nat.ltb_spec (Distance f) (Distance c + 1)); case_decide; try lia;
      by injection Hst' as <-. }
  cbn [qeue lheap far_node trace]. split; [done|]. right.
  exists n, c. split_and!; try done.
  - unfold dist. by rewrite Hn.
  - rewrite Hdn. replace (dist _ (far_node st)) with (Distance f); [done|].
    unfold dist. by rewrite Hf.
Qed.

(** One pass returns when the references it follows are in the store. *)
Lemma visit_Ok start corrent st node :
  (node < length (lheap st))%nat → (corrent < length (lheap st))%nat →
  (far_node st < length (lheap st))%nat →
  ∃ st', visit start corrent st node = Ok st'.
Proof.
  intros Hn Hc Hf. unfold visit, get.
  destruct (lookup_lt_is_Some_2 _ _ Hn) as [n ->].
  destruct (lookup_lt_is_Some_2 _ _ Hc) as [c ->]. cbn [lift bind].
  destruct (_ && _); [|eauto].
  rewrite list_lookup_insert_eq by done. cbn [lift bind].
  destruct (lookup_lt_is_Some_2 (<[node:=set_Distance (Distance c + 1) n]> (lheap st))
              (far_node st)) as [f ->]; [by rewrite length_insert|].
  cbn [lift bind]. destruct (_ <? _)%nat; eauto.
Qed.

Lemma visit_shape start corrent st node st' :
  visit start corrent st node = Ok st' →
  shape (lheap st') = shape (lheap st) ∧ qeue st' = qeue st ++ [node] ∧
  drawn (trace st') = drawn (trace st) ∧
  (far_node st' = far_node st ∨ far_node st' = node).
Proof.
  intros [Hq [(_ & -> & -> & ->)|(n & c & Hn & _ & _ & _ & -> & -> & _ & ->)]]%visit_inv.
  - eauto.
  - split_and!; [by apply shape_set_Distance|done| |case_decide; eauto].
    unfold drawn. by rewrite omap_app, app_nil_r.
Qed.

(** The [for] loop over the neighbours returns, with every neighbour queued
    and nothing but [Distance]s changed in the store. *)
Lemma visits_Ok start corrent l : ∀ st,
  Forall (λ m, m < length (lheap st))%nat l →
  (corrent < length (lheap st))%nat → (far_node st < length (lheap st))%nat →
  ∃ st', foldM (visit start corrent) l st = Ok st' ∧
         shape (lheap st') = shape (lheap st) ∧ qeue st' = qeue st ++ l ∧
         drawn (trace st') = drawn (trace st) ∧
         (far_node st' < length (lheap st'))%nat.
Proof.
  induction l as [|node l IH]; intros st Hl Hc Hf; simpl.
  - exists st. by rewrite app_nil_r.
  - apply Forall_cons in Hl as [Hnode Hl].
    destruct (visit_Ok start corrent st node) as [st1 Hst1]; [done..|].
    rewrite Hst1. simpl.
    destruct (visit_shape _ _ _ _ _ Hst1) as (Hs1 & Hq1 & Hd1 & Hf1).
    pose proof (shape_length _ _ Hs1) as Hlen.
    destruct (IH st1) as (st' & -> & Hs & Hq & Hd & Hf'); try (rewrite Hlen; done).
    { rewrite Hlen. destruct Hf1 as [->| ->]; done. }
    exists st'. split_and!; try done; try congruence.
    by rewrite Hq, Hq1, <- app_assoc.
Qed.

(** The loop state refers to nodes of the store only. *)
Definition wf (st : Loop) : Prop :=
  closed (lheap st) ∧ Forall (λ m, m < length (lheap st))%nat (qeue st) ∧
  (far_node st < length (lheap st))%nat.

Definition marked (h : list Node) (n : nat) : Prop :=
  Visited <$> h !! n = Some true.

(** What is left to do: the queue, and the entries still to come. *)
Definition measure (st : Loop) : nat := (length (qeue st) + pending (lheap st))%nat.

Lemma sum_list_insert (l : list nat) i a b :
  l !! i = Some a → (sum_list (<[i:=b]> l) + a = sum_list l + b)%nat.
Proof.
  revert i; induction l as [|c l IH]; intros [|i] Hi; simplify_eq/=; [lia|].
  specialize (IH i Hi). lia.
Qed.

Lemma pending_mark h c node :
  h !! c = Some node → Visited node = false →
  (pending (<[c := set_Visited true node]> h) + length (Neighbours node) = pending h)%nat.
Proof.
  intros Hc Hv. unfold pending, shape. rewrite !list_fmap_insert. simpl.
  erewrite sum_list_insert; [lia|].
  rewrite !list_lookup_fmap, Hc. simpl. by rewrite Hv.
Qed.

Lemma closed_mark h c node :
  h !! c = Some node → closed h → closed (<[c := set_Visited true node]> h).
Proof.
  intros Hc Hcl. unfold closed in *. rewrite length_insert.
  apply Forall_insert; [done|]. simpl.
  by eapply (proj1 (Forall_lookup _ _) Hcl).
Qed.

(** One round of [while(qeue)]: it returns, the measure goes down by one,
    and either the head was already [Visited] and is only popped, or it was
    not, is expanded, drawn and marked. *)
Lemma bfs_iter_Ok start st c q :
  wf st → qeue st = c :: q →
  ∃ st', bfs_iter start st = Ok st' ∧ wf st' ∧
         (measure st' + 1 = measure st)%nat ∧
         (∀ n, marked (lheap st) n → marked (lheap st') n) ∧
         ((marked (lheap st) c ∧ drawn (trace st') = drawn (trace st)) ∨
          (¬ marked (lheap st) c ∧ marked (lheap st') c ∧
           drawn (trace st') = drawn (trace st) ++ [c])).
Proof.
  intros (Hcl & Hq & Hf) Hqeue. unfold bfs_iter, get. rewrite Hqeue.
  rewrite Hqeue in Hq. apply Forall_cons in Hq as [Hc Hq'].
  destruct (lookup_lt_is_Some_2 _ _ Hc) as [node Hnode]. rewrite Hnode. cbn [lift bind].
  destruct (Visited node) eqn:Hv.
  - eexists. split; [done|]. unfold wf, measure, marked. simpl. rewrite Hqeue. simpl.
    split_and!; try done; [lia|]. left. by rewrite Hnode, <- Hv.
  - destruct (visits_Ok start c (Neighbours node) st) as (st1 & -> & Hs & Hq1 & Hd & Hf1);
      [by eapply (proj1 (Forall_lookup _ _) Hcl)|done..|].
    cbn [bind].
    pose proof (shape_length _ _ Hs) as Hlen.
    destruct (shape_lookup _ _ c node (eq_sym Hs) Hnode) as (node1 & Hnode1 & Hv1 & Hn1).
    rewrite Hnode1. cbn [lift bind].
    eexists. split; [done|]. unfold wf, measure, marked. simpl.
    rewrite length_insert, Hq1, Hqeue. simpl.
    split_and!.
    + apply closed_mark; [done|]. by eapply shape_closed.
    + rewrite Hlen. apply Forall_app. split; [done|].
      by eapply (proj1 (Forall_lookup _ _) Hcl).
    + done.
    + pose proof (pending_mark _ _ _ Hnode1 ltac:(congruence)) as Hp.
      rewrite Hn1 in Hp. unfold pending at 2 in Hp. rewrite Hs in Hp.
      fold (pending (lheap st)) in Hp. rewrite length_app. lia.
    + intros n Hn. destruct (decide (c = n)) as [<-|Hne].
      * by rewrite list_lookup_insert_eq by by rewrite Hlen.
      * rewrite list_lookup_insert_ne by done.
        destruct (lheap st !! n) as [nn|] eqn:Hnn; [|done].
        destruct (shape_lookup _ _ n nn (eq_sym Hs) Hnn) as (nn1 & -> & Hvn & _).
        simpl in *. congruence.
    + right. split_and!.
      * rewrite Hnode. simpl. congruence.
      * by rewrite list_lookup_insert_eq by by rewrite Hlen.
      * unfold drawn in *. by rewrite omap_app, Hd.
Qed.

Lemma bfs_loop_Ok start fuel : ∀ st,
  wf st → (measure st ≤ fuel)%nat →
  NoDup (drawn (trace st)) → (∀ n, n ∈ drawn (trace st) → marked (lheap st) n) →
  ∃ st', bfs_loop fuel start st = Ok st' ∧ qeue st' = [] ∧ wf st' ∧
         NoDup (drawn (trace st')) ∧
         (∀ n, n ∈ drawn (trace st') → marked (lheap st') n).
Proof.
  induction fuel as [|fuel IH]; intros st Hwf Hm Hnd Hmk.
  - exists st. unfold measure in Hm.
    destruct (qeue st) eqn:Hq; simpl in *; [|lia]. by rewrite Hq.
  - simpl. destruct (qeue st) as [|c q] eqn:Hq; [by exists st|].
    destruct (bfs_iter_Ok start st c q Hwf Hq) as (st1 & -> & Hwf1 & Hm1 & Hmono & Hcase).
    cbn [bind]. apply IH; [done|lia| |].
    + destruct Hcase as [[_ ->]|(Hc & _ & ->)]; [done|].
      apply NoDup_app. split_and!; [done| |apply NoDup_singleton].
      intros n Hn ->%list_elem_of_singleton. by apply Hc, Hmk.
    + intros n Hn. destruct Hcase as [[_ Hd]|(_ & Hc & Hd)]; rewrite Hd in Hn.
      * by apply Hmono, Hmk.
      * apply elem_of_app in Hn as [Hn| ->%list_elem_of_singleton]; [|done].
        by apply Hmono, Hmk.
Qed.

(** ** The farthest node *)

(** [far] is the first node with the greatest [Distance] among the start
    node and the nodes a run discovered, in the order of discovery. *)
Definition first_farthest (h : list Node) (start far : nat) (tr : list event) : Prop :=
  ∃ before after,
    start :: discovered tr = before ++ far :: after ∧
    (∀ n, n ∈ before → dist h n < dist h far)%nat ∧
    (∀ n, n ∈ after → dist h n ≤ dist h far)%nat.

(** The distances in the trace are the ones in the store: a [Distance] is
    assigned once, and is not 0. *)
Definition trace_ok (h : list Node) (tr : list event) : Prop :=
  ∀ n d, SetDistance n d ∈ tr → dist h n = d ∧ d ≠ 0%nat.

Definition far_inv (start : nat) (st : Loop) : Prop :=
  first_farthest (lheap st) start (far_node st) (trace st) ∧
  trace_ok (lheap st) (trace st).

Lemma elem_of_discovered n tr : n ∈ discovered tr ↔ ∃ d, SetDistance n d ∈ tr.
Proof.
  unfold discovered. rewrite list_elem_of_omap. split.
  - intros ([m d|m] & Hin & Heq); simplify_eq. eauto.
  - intros [d Hd]. by exists (SetDistance n d).
Qed.

Lemma visit_far_inv start corrent st node st' :
  far_inv start st → visit start corrent st node = Ok st' → far_inv start st'.
Proof.
  intros [(before & after & Hsplit & Hb & Ha) Htr]
         [_ [(_ & Hh & Hf & Ht)|(n & c & Hn & Hc & Hd0 & Hne & Hh & Ht & Hd & Hf)]]%visit_inv.
  { unfold far_inv, first_farthest. rewrite Hh, Hf, Ht.
    split; [by exists before, after|done]. }
  assert (Hfresh : node ∉ start :: discovered (trace st)).
  { intros [->|[d Hin]%elem_of_discovered]%elem_of_cons; [done|].
    apply Htr in Hin as [? ?]. congruence. }
  assert (Hsame : ∀ m, m ∈ start :: discovered (trace st) →
                       dist (lheap st') m = dist (lheap st) m).
  { intros m Hm. rewrite Hh. apply dist_insert_ne. by intros ->. }
  assert (Hdisc : start :: discovered (trace st') = (before ++ far_node st :: after) ++ [node]).
  { rewrite Ht, <- Hsplit. unfold discovered. by rewrite omap_app. }
  assert (Hfar : far_node st ∈ start :: discovered (trace st)).
  { rewrite Hsplit. set_solver. }
  split.
  - rewrite Hf. case_decide as Hlt.
    + exists (before ++ far_node st :: after), []. split_and!; [done| |set_solver].
      intros m Hm. rewrite Hsame by by rewrite Hsplit.
      rewrite Hsame in Hlt by done.
      apply elem_of_app in Hm as [Hm|[->|Hm]%elem_of_cons];
        [apply Hb in Hm|..|apply Ha in Hm]; lia.
    + exists before, (after ++ [node]). rewrite Hsame in Hlt |- * by done.
      split_and!; [by rewrite Hdisc, <- app_assoc| |].
      * intros m Hm. rewrite Hsame; [by apply Hb|]. rewrite Hsplit. set_solver.
      * intros m [Hm| ->%list_elem_of_singleton]%elem_of_app; [|lia].
        rewrite Hsame; [by apply Ha|]. rewrite Hsplit. set_solver.
  - intros m d. rewrite Ht.
    intros [Hin|[= -> ->]%list_elem_of_singleton]%elem_of_app; [|split; [done|lia]].
    rewrite Hsame; [by apply Htr|]. right. apply elem_of_discovered. eauto.
Qed.

Lemma bfs_iter_far_inv start st st' :
  far_inv start st → bfs_iter start st = Ok st' → far_inv start st'.
Proof.
  intros Hinv. unfold bfs_iter, get.
  destruct (qeue st) as [|c q]; [by intros [= <-]|].
  destruct (lheap st !! c) as [node|]; [|done]. cbn [lift bind].
  destruct (Visited node); [by intros [= <-]|].
  destruct (foldM _ _ _) as [st1| |] eqn:Hfold; [|done..]. cbn [bind].
  assert (far_inv start st1) as [(before & after & Hsplit & Hb & Ha) Htr].
  { eapply (foldM_invariant (far_inv start)); [|exact Hinv|exact Hfold].
    intros s a s' _. apply visit_far_inv. }
  destruct (lheap st1 !! c) as [node1|] eqn:Hc1; [|done]. cbn [lift bind].
  intros [= <-]. unfold far_inv, first_farthest, trace_ok. simpl.
  assert (Hdisc : discovered (trace st1 ++ [Draw c]) = discovered (trace st1)).
  { unfold discovered. by rewrite omap_app, app_nil_r. }
  rewrite Hdisc. split.
  - exists before, after. split; [done|].
    split; intros m Hm; rewrite !dist_set_Visited by done; auto.
  - intros m d [Hin|[=]%list_elem_of_singleton]%elem_of_app.
    rewrite dist_set_Visited by done. by apply Htr.
Qed.

Lemma bfs_loop_far_inv start fuel : ∀ st st',
  far_inv start st → bfs_loop fuel start st = Ok st' → far_inv start st'.
Proof.
  induction fuel as [|fuel IH]; intros st st' Hinv; simpl;
    destruct (qeue st); try done; try by intros [= <-].
  intros (st1 & Hst1 & Hloop)%bind_Ok.
  eapply IH; [|exact Hloop]. by eapply bfs_iter_far_inv.
Qed.

(** *** Claims about [tree_diameter.py] *)

(** C1 (the code removes nothing).  Two nodes are to be added and
    connected, the first selected and DELETE pressed.  [main] raises
    AttributeError in the [draw] of its first turn, before it has read an
    event: no node is added and none removed.  The DELETE handler itself,
    with a node selected and [nodes] and [edges] as the module binds them,
    raises TypeError at [edges.copy()], whatever the objects are.  And
    whatever the two names hold, no statement of the handler writes to a
    [Node]: where it returns, every [Neighbours] list is as it was. *)
Theorem key_delete_removes_nothing :
  main 0 [[LeftClick (P 0)]; [LeftClick (P 1)];
          [RightClick (P 0)]; [RightClick (P 1)];
          [RightClick (P 0)]; [KeyDelete]] = Raise AttributeError ∧
  (∀ h n a b, key_delete (module_state h (Some n) a b) = Raise TypeError) ∧
  (∀ w, match key_delete w with
        | Ok w' => heap w' = heap w
        | _ => True
        end).
Proof.
  split_and!; [done..|].
  intros w. destruct (key_delete w) as [w'| |] eqn:Hdel; [|done..].
  revert Hdel. unfold key_delete.
  destruct (selected_node w) as [n|]; [|by intros [= <-]].
  intros (snapshot & _ & (es & _ & (ns & _ & [= <-])%bind_Ok)%bind_Ok)%bind_Ok.
  done.
Qed.

(** C2, counterexample: [bfs] of the diameter tool on the path 0 - 1 - 2
    from the middle.  After the first round both ends are queued and neither
    is marked [Visited]; after the second the end that was expanded is; and
    after the third the queue holds the middle node twice. *)
Lemma bfs_queue_holds_node_twice :
  ∃ st1 st2 st3,
    bfs_rounds 1 1 (bfs_begin path_heap 1) = Ok st1 ∧
    bfs_rounds 2 1 (bfs_begin path_heap 1) = Ok st2 ∧
    bfs_rounds 3 1 (bfs_begin path_heap 1) = Ok st3 ∧
    qeue st1 = [0; 2]%nat ∧
    Visited <$> lheap st1 !! 0%nat = Some false ∧
    Visited <$> lheap st2 !! 0%nat = Some true ∧
    qeue st3 = [1; 1]%nat ∧ ¬ NoDup (qeue st3).
Proof.
  eexists _, _, _. split_and!; try (vm_compute; reflexivity).
  intros Hnd. apply NoDup_cons in Hnd as [Hnd _]. apply Hnd. by left.
Qed.

(** C6 (the code raises).  [find_diameter] returns nothing: it begins with
    [reset_nodes(nodes)], and [nodes] is the alias [List[Node]], so the call
    raises AttributeError at [node.Visited = False], for every seed, whatever
    the objects are and whatever [draw] it is given; so it does for the five
    nodes of the star, in whatever order the centre lists its leaves, and so
    does SPACE with a node selected.  Nor can the star be drawn: [main]
    raises in the [draw] of its first turn. *)
Theorem find_diameter_raises :
  (∀ draw fuel h selected a b seed,
      find_diameter draw fuel (module_state h selected a b) seed
      = Raise AttributeError) ∧
  (∀ draw fuel ns seed,
      find_diameter draw fuel (module_state (star_heap ns) None None None) seed
      = Raise AttributeError) ∧
  (∀ fuel h seed a b,
      key_space fuel (module_state h (Some seed) a b) = Raise AttributeError) ∧
  main 10 ((λ e, [e]) <$> star_inputs) = Raise AttributeError.
Proof. by split_and!. Qed.

(** C9.  On a store in which every neighbour reference names a node, [bfs]
    from any node returns: the loop is over after at most one round per
    queue entry, and there is the start entry and one entry for every
    neighbour of every node that was not [Visited].  No node is expanded
    (drawn) twice, and the expanded nodes are [Visited] at the end. *)
Theorem bfs_terminates h start fuel :
  closed h → (start < length h)%nat → (pending h < fuel)%nat →
  ∃ h' far tr,
    bfs fuel h start = Ok (h', far, tr) ∧
    NoDup (drawn tr) ∧ (∀ n, n ∈ drawn tr → marked h' n) ∧
    closed h' ∧ (far < length h')%nat.
Proof.
  intros Hcl Hstart Hfuel. unfold bfs.
  destruct (bfs_loop_Ok start fuel (bfs_begin h start))
    as (st' & -> & _ & (Hcl' & _ & Hfar) & Hnd & Hmk).
  - split_and!; simpl; [done|by apply Forall_singleton|done].
  - unfold measure. simpl. lia.
  - constructor.
  - by intros n Hn%elem_of_nil.
  - simpl. by exists (lheap st'), (far_node st'), (trace st').
Qed.

Lemma bfs_terminates_witness :
  ∃ h' far tr,
    bfs 5 path_heap 1 = Ok (h', far, tr) ∧
    NoDup (drawn tr) ∧ (∀ n, n ∈ drawn tr → marked h' n) ∧
    closed h' ∧ (far < length h')%nat.
Proof.
  apply (bfs_terminates path_heap 1 5).
  - apply (bool_decide_unpack _). vm_compute. exact I.
  - simpl. lia.
  - vm_compute. lia.
Defined.

(** C5.  In a pass of the loop over the neighbours, [far_node] changes only
    to a node whose [Distance] was just assigned and is greater than that of
    [far_node]; a node whose [Distance] is not greater leaves it as it is.
    So when [bfs] returns, [far_node] is the first of the nodes with the
    greatest [Distance], in the order in which they were discovered, the
    start node first. *)
Theorem far_node_first_farthest :
  (∀ start corrent st node st',
      visit start corrent st node = Ok st' →
      (far_node st' ≠ far_node st →
       far_node st' = node ∧ dist (lheap st) node = 0%nat ∧ node ≠ start ∧
       trace st' = trace st ++ [SetDistance node (dist (lheap st') node)] ∧
       (dist (lheap st') (far_node st) < dist (lheap st') node)%nat) ∧
      ((dist (lheap st') node ≤ dist (lheap st') (far_node st))%nat →
       far_node st' = far_node st)) ∧
  (∀ fuel h start h' far tr,
      bfs fuel h start = Ok (h', far, tr) →
      first_farthest h' start far tr ∧ trace_ok h' tr).
Proof.
  split.
  - intros start corrent st node st'
      [_ [(_ & Hh & Hf & Ht)|(n & c & Hn & Hc & Hd0 & Hne & Hh & Ht & Hd & Hf)]]%visit_inv.
    { split; [by rewrite Hf|done]. }
    rewrite Hf. case_decide as Hlt; split; try done; try lia.
    intros _. split_and!; try done. by rewrite Hd.
  - intros fuel h start h' far tr (st' & Hloop & [= <- <- <-])%bind_Ok.
    apply (bfs_loop_far_inv start fuel (bfs_begin h start)); [|done].
    split; [|by intros n d Hin%elem_of_nil].
    exists [], []. simpl. split_and!; [done|by intros n Hn%elem_of_nil..].
Qed.

Lemma far_node_first_farthest_witness :
  first_farthest
    [mkNode (P 0) true [1] 1; mkNode (P 1) true [0; 2] 0; mkNode (P 2) true [1] 1]%nat
    1 0 [SetDistance 0 1; SetDistance 2 1; Draw 1; Draw 0; Draw 2]%nat ∧
  trace_ok
    [mkNode (P 0) true [1] 1; mkNode (P 1) true [0; 2] 0; mkNode (P 2) true [1] 1]%nat
    [SetDistance 0 1; SetDistance 2 1; Draw 1; Draw 0; Draw 2]%nat.
Proof.
  apply (proj2 far_node_first_farthest 5%nat path_heap 1%nat).
  vm_compute. reflexivity.
Defined.

(** ** The graph in the store *)

(** What the handlers of the mouse write and the searches leave alone: the
    position and the neighbours of every node. *)
Definition graph (h : list Node) : list (Z * Z * list nat) :=
  (λ node, (pos node, Neighbours node)) <$> h.

(** A node as [reset_nodes] leaves it. *)
Definition reset_node (node : Node) : Node :=
  mkNode (pos node) false (Neighbours node) 0.

Lemma graph_length h h' : graph h = graph h' → length h = length h'.
Proof.
  intros H. apply (f_equal length) in H. unfold graph in H.
  by rewrite !length_fmap in H.
Qed.

Lemma graph_insert h n node node' :
  h !! n = Some node → pos node' = pos node → Neighbours node' = Neighbours node →
  graph (<[n := node']> h) = graph h.
Proof.
  intros Hn Hp Hnb. unfold graph. rewrite list_fmap_insert. apply list_insert_id.
  rewrite list_lookup_fmap, Hn. simpl. by rewrite Hp, Hnb.
Qed.

Lemma graph_lookup h n p ns :
  graph h !! n = Some (p, ns) ↔ ∃ node, h !! n = Some node ∧ pos node = p ∧ Neighbours node = ns.
Proof.
  unfold graph. rewrite list_lookup_fmap. split.
  - destruct (h !! n) as [node|]; [|done]. intros [= <- <-]. eauto.
  - intros (node & -> & <- & <-). done.
Qed.

Lemma reset_nodes_Ok nodes : ∀ h,
  Forall (λ n, n < length h)%nat nodes →
  ∃ h', reset_nodes nodes h = Ok h' ∧ length h' = length h ∧
        ∀ n node, h !! n = Some node →
                  h' !! n = Some (if decide (n ∈ nodes) then reset_node node else node).
Proof.
  unfold reset_nodes.
  induction nodes as [|a nodes IH]; intros h Hvalid; simpl.
  - exists h. split_and!; [done..|]. intros n node Hn.
    by destruct (decide (n ∈ [])) as [?%elem_of_nil|].
  - apply Forall_cons in Hvalid as [Ha Hvalid]. unfold get at 1 2.
    destruct (lookup_lt_is_Some_2 _ _ Ha) as [na Hna]. rewrite Hna. cbn [lift bind].
    rewrite list_lookup_insert_eq by done. cbn [lift bind].
    rewrite list_insert_insert_eq.
    change (set_Distance 0 (set_Visited false na)) with (reset_node na).
    destruct (IH (<[a:=reset_node na]> h)) as (h' & -> & Hlen & Hh').
    { by rewrite length_insert. }
    exists h'. split_and!; [done|by rewrite Hlen, length_insert|].
    intros n node Hn. destruct (decide (n = a)) as [->|Hne].
    + rewrite Hna in Hn. injection Hn as <-.
      rewrite (Hh' a (reset_node na)) by by rewrite list_lookup_insert_eq.
      rewrite (decide_True (P := a ∈ a :: nodes)) by by left. by case_decide.
    + rewrite (Hh' n node) by by rewrite list_lookup_insert_ne.
      f_equal. repeat case_decide; try done; set_solver.
Qed.

Lemma visit_graph start corrent st node st' :
  visit start corrent st node = Ok st' → graph (lheap st') = graph (lheap st).
Proof.
  intros [_ [(_ & -> & _)|(n & c & Hn & _ & _ & _ & -> & _)]]%visit_inv; [done|].
  by eapply graph_insert.
Qed.

Lemma bfs_iter_graph start st st' :
  bfs_iter start st = Ok st' → graph (lheap st') = graph (lheap st).
Proof.
  unfold bfs_iter, get. destruct (qeue st) as [|c q]; [by intros [= <-]|].
  destruct (lheap st !! c) as [node|]; [|done]. cbn [lift bind].
  destruct (Visited node); [by intros [= <-]|].
  destruct (foldM _ _ _) as [st1| |] eqn:Hfold; [|done..]. cbn [bind].
  assert (graph (lheap st1) = graph (lheap st)) as Hg.
  { eapply (foldM_invariant (λ s, graph (lheap s) = graph (lheap st))); [|done|exact Hfold].
    intros s a s' _ Hs Hv. by rewrite (visit_graph _ _ _ _ _ Hv). }
  destruct (lheap st1 !! c) as [node1|] eqn:Hc1; [|done]. cbn [lift bind].
  intros [= <-]. simpl. rewrite <- Hg. by eapply graph_insert.
Qed.

Lemma bfs_graph fuel h start h' far tr :
  bfs fuel h start = Ok (h', far, tr) → graph h' = graph h.
Proof.
  unfold bfs. intros (st' & Hloop & [= <- _ _])%bind_Ok.
  change h with (lheap (bfs_begin h start)). revert Hloop. generalize (bfs_begin h start).
  induction fuel as [|fuel IH]; intros st; simpl;
    destruct (qeue st); try done; try by intros [= <-].
  intros (st1 & Hst1 & Hloop)%bind_Ok.
  rewrite (IH _ Hloop). by eapply bfs_iter_graph.
Qed.

Lemma reset_nodes_graph nodes h h' : reset_nodes nodes h = Ok h' → graph h' = graph h.
Proof.
  unfold reset_nodes.
  apply (foldM_invariant (λ h0, graph h0 = graph h)); [|done].
  intros h0 a h1 _ Hg. unfold get.
  destruct (h0 !! a) as [n|] eqn:Hn; [|done]. cbn [lift bind].
  rewrite list_lookup_insert_eq by by eapply lookup_lt_Some. cbn [lift bind].
  intros [= <-]. rewrite list_insert_insert_eq. rewrite <- Hg. by eapply graph_insert.
Qed.

(** ** The ends of an edge *)

(** An edge with [n] at one of its ends. *)
Definition touches (n : nat) (e : Edge) : Prop := start e = n ∨ end_ e = n.

(** ** What a search reaches *)

(** [reach g a b]: [b] is reached from [a] along neighbour lists. *)
Inductive reach (g : list (Z * Z * list nat)) (a : nat) : nat → Prop :=
| reach_here : reach g a a
| reach_next m b p ns :
    reach g a m → g !! m = Some (p, ns) → b ∈ ns → reach g a b.

Lemma marked_shape h h' n : shape h = shape h' → marked h n → marked h' n.
Proof.
  unfold marked. intros Hs Hn. destruct (h !! n) as [node|] eqn:Hnode; [|done].
  destruct (shape_lookup _ _ _ _ Hs Hnode) as (node' & -> & Hv & _).
  simpl in *. congruence.
Qed.

Lemma visits_shape start corrent l : ∀ st st',
  foldM (visit start corrent) l st = Ok st' →
  shape (lheap st') = shape (lheap st) ∧ qeue st' = qeue st ++ l.
Proof.
  induction l as [|node l IH]; intros st st'; simpl.
  - intros [= <-]. by rewrite app_nil_r.
  - intros (st1 & (Hs1 & Hq1 & _)%visit_shape & (Hs & Hq)%IH)%bind_Ok.
    split; [congruence|]. by rewrite Hq, Hq1, <- app_assoc.
Qed.

(** One round of the loop, when it returns: the head is popped if it is
    marked; if not, its neighbours are queued behind the rest and it is
    marked, it alone. *)
Lemma bfs_iter_step start st st' c q :
  bfs_iter start st = Ok st' → qeue st = c :: q →
  (marked (lheap st) c ∧ qeue st' = q ∧
   ∀ n, marked (lheap st') n ↔ marked (lheap st) n) ∨
  (∃ p ns, graph (lheap st) !! c = Some (p, ns) ∧ qeue st' = q ++ ns ∧
           ¬ marked (lheap st) c ∧
           ∀ n, marked (lheap st') n ↔ marked (lheap st) n ∨ n = c).
Proof.
  unfold bfs_iter, get. intros Hiter Hq. rewrite Hq in Hiter.
  destruct (lheap st !! c) as [node|] eqn:Hc; [|done]. cbn [lift bind] in Hiter.
  destruct (Visited node) eqn:Hv.
  - injection Hiter as <-. left. simpl. unfold marked. rewrite Hc. simpl.
    by rewrite Hv.
  - destruct (foldM _ _ _) as [st1| |] eqn:Hfold; [|done..]. cbn [bind] in Hiter.
    destruct (visits_shape _ _ _ _ _ Hfold) as [Hs Hq1].
    destruct (lheap st1 !! c) as [node1|] eqn:Hc1; [|done]. cbn [lift bind] in Hiter.
    injection Hiter as <-. right. exists (pos node), (Neighbours node). simpl.
    split_and!.
    + apply graph_lookup. eauto.
    + by rewrite Hq1, Hq.
    + unfold marked. rewrite Hc. simpl. congruence.
    + intros n. unfold marked. destruct (decide (c = n)) as [<-|Hne].
      * rewrite list_lookup_insert_eq by by eapply lookup_lt_Some. simpl. tauto.
      * rewrite list_lookup_insert_ne by done. split.
        -- intros Hn. left. by apply (marked_shape _ _ _ Hs).
        -- intros [Hn| ->]; [|done]. by apply (marked_shape _ _ _ (eq_sym Hs)).
Qed.

(** While [bfs] runs from [start] on a store with graph [g] in which no
    node was marked at first: the marked nodes and the queued ones are
    reached from [start]; [start] is marked or queued; and every neighbour
    of a marked node is marked or queued. *)
Definition inv_reach (g : list (Z * Z * list nat)) (start : nat) (st : Loop) : Prop :=
  graph (lheap st) = g ∧
  (∀ n, marked (lheap st) n ∨ n ∈ qeue st → reach g start n) ∧
  (marked (lheap st) start ∨ start ∈ qeue st) ∧
  (∀ n p ns m, marked (lheap st) n → g !! n = Some (p, ns) → m ∈ ns →
               marked (lheap st) m ∨ m ∈ qeue st).

Lemma bfs_iter_inv_reach g start st st' :
  inv_reach g start st → qeue st ≠ [] → bfs_iter start st = Ok st' →
  inv_reach g start st'.
Proof.
  intros (Hg & Hre & Hst & Hcl) Hne Hiter.
  destruct (qeue st) as [|c q] eqn:Hq; [done|].
  pose proof (bfs_iter_graph _ _ _ Hiter) as Hg'.
  destruct (bfs_iter_step _ _ _ _ _ Hiter Hq)
    as [(Hc & Hq' & Hmk)|(p & ns & Hcg & Hq' & Hc & Hmk)].
  - split_and!.
    + by rewrite Hg'.
    + intros n [Hn%Hmk|Hn]; apply Hre; [by left|]. right. rewrite Hq' in Hn. by right.
    + destruct Hst as [Hs|[->|Hs]%elem_of_cons].
      * left. by apply Hmk.
      * left. by apply Hmk.
      * right. by rewrite Hq'.
    + intros n p ns m Hn%Hmk Hnp Hm.
      destruct (Hcl n p ns m Hn Hnp Hm) as [Hm'|[->|Hm']%elem_of_cons].
      * left. by apply Hmk.
      * left. by apply Hmk.
      * right. by rewrite Hq'.
  - rewrite Hg in Hcg. split_and!.
    + by rewrite Hg'.
    + intros n [[Hn| ->]%Hmk|Hn].
      * apply Hre. by left.
      * apply Hre. right. by left.
      * rewrite Hq' in Hn. apply elem_of_app in Hn as [Hn|Hn].
        -- apply Hre. right. by right.
        -- eapply reach_next; [|exact Hcg|exact Hn]. apply Hre. right. by left.
    + destruct Hst as [Hs|[->|Hs]%elem_of_cons].
      * left. apply Hmk. by left.
      * left. apply Hmk. by right.
      * right. rewrite Hq'. apply elem_of_app. by left.
    + intros n p' ns' m [Hn| ->]%Hmk Hnp Hm.
      * destruct (Hcl n p' ns' m Hn Hnp Hm) as [Hm'|[->|Hm']%elem_of_cons].
        -- left. apply Hmk. by left.
        -- left. apply Hmk. by right.
        -- right. rewrite Hq'. apply elem_of_app. by left.
      * rewrite Hcg in Hnp. injection Hnp as <- <-.
        right. rewrite Hq'. apply elem_of_app. by right.
Qed.

Lemma bfs_loop_inv_reach g start fuel : ∀ st st',
  inv_reach g start st → bfs_loop fuel start st = Ok st' →
  inv_reach g start st' ∧ qeue st' = [].
Proof.
  induction fuel as [|fuel IH]; intros st st' Hinv; simpl;
    destruct (qeue st) eqn:Hq; try done; try by intros [= <-].
  intros (st1 & Hst1 & Hloop)%bind_Ok.
  eapply IH; [|exact Hloop].
  apply (bfs_iter_inv_reach g start st st1 Hinv); [|exact Hst1]. by rewrite Hq.
Qed.


(** ** Distances *)

(** While [bfs] runs on a store in which every [Distance] was 0 at first:
    a node has a [Distance] other than 0 only if the run assigned it; the
    nodes the run assigned are not the start, and are marked or queued; a
    marked or queued node is the start or was assigned; an assignment gave a neighbour
    of [c] one more than the [Distance] of [c], for a node [c] that is the
    start or was assigned before; and the start keeps 0. *)
Definition inv_dist (g : list (Z * Z * list nat)) (start : nat) (st : Loop) : Prop :=
  (∀ n, dist (lheap st) n ≠ 0%nat → n ∈ discovered (trace st)) ∧
  (∀ n, n ∈ discovered (trace st) →
        (marked (lheap st) n ∨ n ∈ qeue st) ∧ n ≠ start) ∧
  (∀ n, marked (lheap st) n ∨ n ∈ qeue st → n = start ∨ n ∈ discovered (trace st)) ∧
  (∀ n d, SetDistance n d ∈ trace st →
          dist (lheap st) n = d ∧ d ≠ 0%nat ∧
          ∃ c p ns, g !! c = Some (p, ns) ∧ n ∈ ns ∧
                    d = (dist (lheap st) c + 1)%nat ∧
                    (c = start ∨ c ∈ discovered (trace st))) ∧
  dist (lheap st) start = 0%nat.

Lemma discovered_snoc tr n d :
  discovered (tr ++ [SetDistance n d]) = discovered tr ++ [n].
Proof. unfold discovered. by rewrite omap_app. Qed.

Lemma discovered_dist g start st n :
  inv_dist g start st → n ∈ discovered (trace st) → dist (lheap st) n ≠ 0%nat.
Proof.
  intros (_ & _ & _ & HT & _) [d Hd]%elem_of_discovered.
  destruct (HT n d Hd) as (-> & ? & _). done.
Qed.

Lemma visit_inv_dist g start corrent p ns st node st' :
  g !! corrent = Some (p, ns) → node ∈ ns →
  (corrent = start ∨ corrent ∈ discovered (trace st)) →
  inv_dist g start st → visit start corrent st node = Ok st' →
  inv_dist g start st'.
Proof.
  intros Hcg Hnode Hcor Hinv Hvisit. pose proof Hinv as (HE & HF & HG & HT & HS).
  apply visit_inv in Hvisit
    as [Hq [(Hold & Hh & _ & Ht)|(n & c & Hn & Hc & Hd0 & Hne & Hh & Ht & Hd & _)]].
  - unfold inv_dist. rewrite Hh, Ht, Hq. split_and!; [done| | |done..].
    + intros m Hm. destruct (HF m Hm) as [[?|?] ?]; split; try done; [by left|].
      right. apply elem_of_app. by left.
    + intros m [Hm|[Hm| ->%list_elem_of_singleton]%elem_of_app];
        [apply HG; by left|apply HG; by right|].
      destruct Hold as [Hold| ->]; [right; by apply HE|by left].
  - assert (Hfresh : node ∉ discovered (trace st)).
    { intros Hin. by apply (discovered_dist g start st node Hinv). }
    assert (Hsame : ∀ m, m ≠ node → dist (lheap st') m = dist (lheap st) m).
    { intros m Hm. rewrite Hh. by apply dist_insert_ne. }
    assert (Hcn : corrent ≠ node).
    { intros ->. destruct Hcor as [?|?]; done. }
    assert (Hdc : dist (lheap st) corrent = Distance c) by (unfold dist; by rewrite Hc).
    assert (Hmk : ∀ m, marked (lheap st) m → marked (lheap st') m).
    { intros m. apply marked_shape. rewrite Hh. symmetry. by apply shape_set_Distance. }
    unfold inv_dist. rewrite Ht, Hq, discovered_snoc. split_and!.
    + intros m Hm. destruct (decide (m = node)) as [->|Hmn]; [set_solver|].
      rewrite Hsame in Hm by done. apply elem_of_app. left. by apply HE.
    + intros m [Hm| ->%list_elem_of_singleton]%elem_of_app.
      * destruct (HF m Hm) as [[?|?] ?]. { split; [left; by apply Hmk|done]. }
        split; [right; apply elem_of_app; by left|done].
      * split; [right; apply elem_of_app; right; by left|done].
    + assert (Hmk' : ∀ m, marked (lheap st') m → marked (lheap st) m).
      { intros m. apply marked_shape. rewrite Hh. by apply shape_set_Distance. }
      intros m [Hm%Hmk'|[Hm| ->%list_elem_of_singleton]%elem_of_app].
      * destruct (HG m) as [->|?]; [by left|by left|]. right. apply elem_of_app. by left.
      * destruct (HG m) as [->|?]; [by right|by left|]. right. apply elem_of_app. by left.
      * right. apply elem_of_app. right. by left.
    + intros m d [Hm|[= -> ->]%list_elem_of_singleton]%elem_of_app.
      * destruct (HT m d Hm) as (Hdm & Hdn & c' & p' & ns' & Hc' & Hmn & Hdc' & Hc'd).
        assert (m ≠ node) by (intros ->; congruence).
        assert (c' ≠ node).
        { intros ->. destruct Hc'd as [?|?]; done. }
        rewrite !Hsame by done. split_and!; [done..|].
        exists c', p', ns'. rewrite Hsame by done. split_and!; [done..|].
        destruct Hc'd as [?|?]; [by left|]. right. apply elem_of_app. by left.
      * split_and!; [done|lia|]. exists corrent, p, ns.
        rewrite Hsame by done. split_and!; [done..|lia|].
        destruct Hcor as [?|?]; [by left|]. right. apply elem_of_app. by left.
    + by rewrite Hsame.
Qed.

Lemma visits_inv_dist g start corrent p ns l : ∀ st st',
  g !! corrent = Some (p, ns) → l ⊆ ns →
  (corrent = start ∨ corrent ∈ discovered (trace st)) →
  inv_dist g start st → foldM (visit start corrent) l st = Ok st' →
  inv_dist g start st' ∧ (corrent = start ∨ corrent ∈ discovered (trace st')).
Proof.
  induction l as [|node l IH]; intros st st' Hcg Hsub Hcor Hinv; simpl.
  - by intros [= <-].
  - intros (st1 & Hv & Hfold)%bind_Ok.
    apply (IH st1 st' Hcg); [set_solver| | |done].
    + destruct Hcor as [?|Hcor]; [by left|]. right.
      apply visit_inv in Hv as [_ [(_ & _ & _ & ->)|(? & ? & _ & _ & _ & _ & _ & -> & _)]];
        [done|]. rewrite discovered_snoc. apply elem_of_app. by left.
    + eapply (visit_inv_dist g start corrent p ns st node st1); eauto. set_solver.
Qed.

Lemma bfs_iter_inv_dist g start st st' :
  graph (lheap st) = g → inv_dist g start st → bfs_iter start st = Ok st' →
  inv_dist g start st'.
Proof.
  intros Hg Hinv Hiter.
  destruct (qeue st) as [|c q] eqn:Hq.
  { unfold bfs_iter in Hiter. rewrite Hq in Hiter. by injection Hiter as <-. }
  revert Hiter. unfold bfs_iter, get. rewrite Hq.
  pose proof Hinv as (HE & HF & HG & HT & HS).
  destruct (lheap st !! c) as [node|] eqn:Hc; [|done]. cbn [lift bind].
  destruct (Visited node) eqn:Hv.
  - intros [= <-]. unfold inv_dist. simpl. split_and!; [done| | |done..].
    + intros n Hn. destruct (HF n Hn) as [[?|Hin] ?]; split; try done; [by left|].
      rewrite Hq in Hin. apply elem_of_cons in Hin as [->|?]; [|by right].
      left. unfold marked. rewrite Hc. simpl. by rewrite Hv.
    + intros n [Hn|Hn]; apply HG; [by left|]. right. rewrite Hq. by right.
  - destruct (foldM _ _ _) as [st1| |] eqn:Hfold; [|done..]. cbn [bind].
    destruct (visits_inv_dist g start c (pos node) (Neighbours node) (Neighbours node)
                st st1) as [(HE1 & HF1 & HG1 & HT1 & HS1) _].
    { rewrite <- Hg. apply graph_lookup. eauto. }
    { by intros ?. }
    { apply HG. right. rewrite Hq. by left. }
    { exact Hinv. }
    { exact Hfold. }
    destruct (visits_shape _ _ _ _ _ Hfold) as [Hs1 Hq1].
    destruct (lheap st1 !! c) as [node1|] eqn:Hc1; [|done]. cbn [lift bind].
    intros [= <-]. unfold inv_dist. simpl.
    assert (Hdisc : discovered (trace st1 ++ [Draw c]) = discovered (trace st1)).
    { unfold discovered. by rewrite omap_app, app_nil_r. }
    rewrite Hdisc.
    assert (Hd : ∀ m, dist (<[c:=set_Visited true node1]> (lheap st1)) m = dist (lheap st1) m)
      by (intros m; by apply dist_set_Visited).
    split_and!.
    + intros n. rewrite Hd. apply HE1.
    + intros n Hn. destruct (HF1 n Hn) as [Hor ?]. split; [|done].
      rewrite Hq1, Hq in Hor. simpl in Hor.
      destruct (decide (n = c)) as [->|Hnc].
      * left. unfold marked. by rewrite list_lookup_insert_eq by by eapply lookup_lt_Some.
      * destruct Hor as [Hm|[?|?]%elem_of_cons]; [|done|right; by rewrite Hq1, Hq].
        left. unfold marked in *. by rewrite list_lookup_insert_ne.
    + intros n [Hn|Hn].
      * destruct (decide (n = c)) as [->|Hnc].
        { apply HG1. right. rewrite Hq1, Hq. by left. }
        apply HG1. left. unfold marked in *. by rewrite list_lookup_insert_ne in Hn.
      * apply HG1. right. rewrite Hq1, Hq in *. simpl in Hn. by right.
    + intros n d [Hin|[=]%list_elem_of_singleton]%elem_of_app.
      destruct (HT1 n d Hin) as (? & ? & c' & p' & ns' & ? & ? & ? & ?).
      rewrite !Hd. split_and!; [done..|]. exists c', p', ns'. by rewrite Hd.
    + by rewrite Hd.
Qed.

Lemma bfs_loop_inv_dist g start fuel : ∀ st st',
  graph (lheap st) = g → inv_dist g start st → bfs_loop fuel start st = Ok st' →
  inv_dist g start st'.
Proof.
  induction fuel as [|fuel IH]; intros st st' Hg Hinv; simpl;
    destruct (qeue st) eqn:Hq; try done; try by intros [= <-].
  intros (st1 & Hst1 & Hloop)%bind_Ok.
  eapply (IH st1); [|by eapply bfs_iter_inv_dist|exact Hloop].
  by rewrite (bfs_iter_graph _ _ _ Hst1).
Qed.


(** A store as [reset_nodes] leaves it when it is given every node. *)
Definition fresh (h : list Node) : Prop :=
  Forall (λ node, Visited node = false ∧ Distance node = 0%nat) h.

(** What holds when [bfs] returns on a fresh store. *)
Lemma bfs_fresh_final fuel h start h' far tr :
  fresh h → bfs fuel h start = Ok (h', far, tr) →
  ∃ st', h' = lheap st' ∧ far = far_node st' ∧ tr = trace st' ∧ qeue st' = [] ∧
         inv_reach (graph h) start st' ∧ inv_dist (graph h) start st' ∧
         far_inv start st'.
Proof.
  intros Hfresh (st' & Hloop & [= <- <- <-])%bind_Ok.
  assert (Hnone : ∀ m, ¬ marked h m).
  { intros m. unfold marked. destruct (h !! m) as [node|] eqn:Hm; [|done].
    apply (proj1 (Forall_lookup _ _) Hfresh) in Hm as [Hv _]. simpl. congruence. }
  assert (Hzero : ∀ m, dist h m = 0%nat).
  { intros m. unfold dist. destruct (h !! m) as [node|] eqn:Hm; [|done].
    by apply (proj1 (Forall_lookup _ _) Hfresh) in Hm as [_ Hd]. }
  exists st'. split_and!; try done.
  - eapply bfs_loop_inv_reach; [|exact Hloop]. split_and!; simpl.
    + done.
    + intros m [Hm| ->%list_elem_of_singleton]; [by apply Hnone in Hm|constructor].
    + right. by left.
    + intros m p ns k Hm. by apply Hnone in Hm.
  - eapply bfs_loop_inv_reach; [|exact Hloop]. split_and!; simpl.
    + done.
    + intros m [Hm| ->%list_elem_of_singleton]; [by apply Hnone in Hm|constructor].
    + right. by left.
    + intros m p ns k Hm. by apply Hnone in Hm.
  - eapply (bfs_loop_inv_dist (graph h)); [| |exact Hloop]; [done|].
    unfold inv_dist. simpl. split_and!.
    + intros n Hn. by rewrite Hzero in Hn.
    + by intros n ?%elem_of_nil.
    + intros n [Hn| ->%list_elem_of_singleton]; [by apply Hnone in Hn|by left].
    + by intros n d ?%elem_of_nil.
    + done.
  - apply (bfs_loop_far_inv start fuel (bfs_begin h start)); [|done].
    split; [|by intros n d Hin%elem_of_nil].
    exists [], []. simpl. split_and!; [done|by intros n Hn%elem_of_nil..].
Qed.

(** When the queue is empty, the nodes the run took note of are the nodes
    reached from the start. *)
Lemma noted_reached g start st n :
  inv_reach g start st → inv_dist g start st → qeue st = [] →
  n ∈ start :: discovered (trace st) ↔ reach g start n.
Proof.
  intros (_ & Hre & Hst & Hcl) (_ & HF & HG & _) Hq. rewrite Hq in *. split.
  - intros [->|Hn]%elem_of_cons; [constructor|].
    apply Hre. by destruct (HF n Hn) as [[?|?%elem_of_nil] _]; [left|].
  - intros Hn. assert (marked (lheap st) n) as Hm.
    { induction Hn as [|m b p ns Hm IH Hmp Hb].
      - by destruct Hst as [?|?%elem_of_nil].
      - by destruct (Hcl m p ns b IH Hmp Hb) as [?|?%elem_of_nil]. }
    destruct (HG n) as [->|?]; [by left|by left|by right].
Qed.

(** *** More about [tree_diameter.py] *)

(** X8.  [reset_nodes] returns when its nodes are in the store; it clears
    [Visited] and [Distance] of exactly the nodes it is given, changes no
    position and no neighbour list, and a second reset changes nothing. *)
Theorem reset_nodes_clears nodes h :
  Forall (λ n, n < length h)%nat nodes →
  ∃ h', reset_nodes nodes h = Ok h' ∧ length h' = length h ∧
        (∀ n node, h !! n = Some node →
           h' !! n = Some (if decide (n ∈ nodes)
                           then mkNode (pos node) false (Neighbours node) 0
                           else node)) ∧
        reset_nodes nodes h' = Ok h'.
Proof.
  intros Hvalid.
  destruct (reset_nodes_Ok nodes h Hvalid) as (h' & Hr & Hlen & Hh').
  exists h'. split_and!; [done..|].
  destruct (reset_nodes_Ok nodes h') as (h'' & Hr' & Hlen' & Hh''); [by rewrite Hlen|].
  rewrite Hr'. f_equal. apply list_eq. intros n.
  destruct (h' !! n) as [node'|] eqn:Hn'.
  - rewrite (Hh'' n node' Hn'). case_decide as Hin; [|done].
    destruct (lookup_lt_is_Some_2 h n) as [node Hn].
    { rewrite <- Hlen. by eapply lookup_lt_Some. }
    rewrite (Hh' n node Hn), decide_True in Hn' by done. by injection Hn' as <-.
  - apply lookup_ge_None. rewrite Hlen'. by apply lookup_ge_None.
Qed.

Lemma reset_nodes_clears_witness :
  ∃ h', reset_nodes [2; 0]%nat path_heap = Ok h' ∧ length h' = length path_heap ∧
        (∀ n node, path_heap !! n = Some node →
           h' !! n = Some (if decide (n ∈ [2; 0]%nat)
                           then mkNode (pos node) false (Neighbours node) 0
                           else node)) ∧
        reset_nodes [2; 0]%nat h' = Ok h'.
Proof.
  apply (reset_nodes_clears [2; 0]%nat path_heap).
  apply (bool_decide_unpack _). vm_compute. exact I.
Defined.

(** X10.  With [nodes] as the module binds it, [get_node_at_pos] raises
    AttributeError for every position, at [node.pos] of the one item that
    the alias gives.  So do a left click and a right click, which begin with
    it, and the key r, which resets [nodes]; this whatever the objects and
    the other globals are.  DELETE and SPACE use [nodes] and [edges] only
    with a node selected: with none they change nothing. *)
Theorem handlers_raise h p selected a b fuel :
  get_node_at_pos h List_Node p = Raise AttributeError ∧
  left_click p (module_state h selected a b) = Raise AttributeError ∧
  right_click p (module_state h selected a b) = Raise AttributeError ∧
  key_r (module_state h selected a b) = Raise AttributeError ∧
  key_delete (module_state h None a b) = Ok (module_state h None a b) ∧
  key_space fuel (module_state h None a b) = Ok (module_state h None a b).
Proof. by split_and!. Qed.

(** X12.  [main] handles no event.  Whatever the events of its first turn
    and of the later ones, the [draw] that begins the first turn raises
    AttributeError, at [edge.start] of the one item that [edges], the alias
    [List[Node]], gives.  The same holds of the loop, and of [draw], in any
    state in which the two names are what the module binds them to. *)
Theorem main_raises fuel es frames :
  main fuel (es :: frames) = Raise AttributeError ∧
  ∀ h selected a b,
    draw (module_state h selected a b) = Raise AttributeError ∧
    main_loop fuel (es :: frames) (module_state h selected a b) = Raise AttributeError.
Proof. by split_and!. Qed.

(** X13.  [Edge.other_end] gives a node only for an end of the edge, the
    node it gives is an end of the edge too, and from that node it gives the
    first one back; the two differ unless the edge is a loop.  For a node
    that is no end of the edge it gives [False]. *)
Theorem other_end_involutive e n m :
  other_end e n = Some m →
  touches n e ∧ touches m e ∧ other_end e m = Some n ∧
  (start e ≠ end_ e → m ≠ n) ∧
  (∀ k, ¬ touches k e → other_end e k = None).
Proof.
  unfold other_end, touches. intros Hm. split_and!.
  - destruct (Nat.eqb_spec n (end_ e)), (Nat.eqb_spec n (start e)); naive_solver.
  - destruct (Nat.eqb_spec n (end_ e)), (Nat.eqb_spec n (start e)); naive_solver.
  - destruct (Nat.eqb_spec n (end_ e)), (Nat.eqb_spec n (start e));
      simplify_eq; rewrite ?Nat.eqb_refl; try done;
      by destruct (Nat.eqb_spec (end_ e) (end_ e)), (Nat.eqb_spec (start e) (end_ e));
        try congruence.
  - destruct (Nat.eqb_spec n (end_ e)), (Nat.eqb_spec n (start e)); naive_solver.
  - intros k Hk.
    destruct (Nat.eqb_spec k (end_ e)), (Nat.eqb_spec k (start e)); naive_solver.
Qed.

Lemma other_end_involutive_witness :
  touches 1 (mkEdge 0 1) ∧ touches 0 (mkEdge 0 1) ∧
  other_end (mkEdge 0 1) 0 = Some 1%nat ∧
  (start (mkEdge 0 1) ≠ end_ (mkEdge 0 1) → 0%nat ≠ 1%nat) ∧
  (∀ k, ¬ touches k (mkEdge 0 1) → other_end (mkEdge 0 1) k = None).
Proof.
  apply (other_end_involutive (mkEdge 0 1) 1%nat 0%nat). reflexivity.
Defined.

(** X14.  On a store in which no node is marked [Visited], [bfs] marks
    exactly the nodes that are reached from the start node along neighbour
    lists: the whole component and nothing else. *)
Theorem bfs_marks_component fuel h start h' far tr n :
  Forall (λ node, Visited node = false) h →
  bfs fuel h start = Ok (h', far, tr) →
  marked h' n ↔ reach (graph h) start n.
Proof.
  intros Hfresh (st' & Hloop & [= <- _ _])%bind_Ok.
  destruct (bfs_loop_inv_reach (graph h) start fuel (bfs_begin h start) st')
    as [(Hg & Hre & Hst & Hcl) Hq]; [|done|].
  { assert (Hnone : ∀ m, ¬ marked h m).
    { intros m. unfold marked. destruct (h !! m) as [node|] eqn:Hm; [|done].
      apply (proj1 (Forall_lookup _ _) Hfresh) in Hm. simpl. congruence. }
    split_and!; simpl.
    - done.
    - intros m [Hm| ->%list_elem_of_singleton]; [by apply Hnone in Hm|constructor].
    - right. by left.
    - intros m p ns k Hm. by apply Hnone in Hm. }
  rewrite Hq in *. split.
  - intros Hn. apply Hre. by left.
  - induction 1 as [|m b p ns Hm IH Hmp Hb].
    + by destruct Hst as [?|?%elem_of_nil].
    + by destruct (Hcl m p ns b IH Hmp Hb) as [?|?%elem_of_nil].
Qed.

Lemma bfs_marks_component_witness :
  marked [mkNode (P 0) true [1] 1; mkNode (P 1) true [0; 2] 0;
          mkNode (P 2) true [1] 1]%nat 2
  ↔ reach (graph path_heap) 1 2.
Proof.
  apply (bfs_marks_component 5 path_heap 1%nat _ 0%nat
           [SetDistance 0 1; SetDistance 2 1; Draw 1; Draw 0; Draw 2]%nat 2%nat).
  - apply (bool_decide_unpack _). vm_compute. exact I.
  - vm_compute. reflexivity.
Defined.

(** X15.  On a fresh store, when [bfs] returns: the start node has
    [Distance] 0, and every other node reached from it has a [Distance] one
    more than that of a node, itself reached from the start, that has it as
    a neighbour. *)
Theorem bfs_distance_one_more fuel h start h' far tr :
  fresh h → bfs fuel h start = Ok (h', far, tr) →
  dist h' start = 0%nat ∧
  ∀ n, reach (graph h) start n → n ≠ start →
       ∃ c p ns, reach (graph h) start c ∧ graph h !! c = Some (p, ns) ∧ n ∈ ns ∧
                 dist h' n = (dist h' c + 1)%nat.
Proof.
  intros Hfresh Hbfs.
  destruct (bfs_fresh_final _ _ _ _ _ _ Hfresh Hbfs)
    as (st' & -> & -> & -> & Hq & Hreach & Hdist & _).
  pose proof Hdist as (_ & _ & _ & HT & HS). split; [done|].
  intros n Hn Hne.
  apply (noted_reached _ _ _ _ Hreach Hdist Hq) in Hn.
  apply elem_of_cons in Hn as [?|[d Hd]%elem_of_discovered]; [done|].
  destruct (HT n d Hd) as (Hdn & _ & c & p & ns & Hc & Hin & Hdc & Hcd).
  exists c, p, ns. split_and!; [|done..|congruence].
  apply (noted_reached _ _ _ _ Hreach Hdist Hq).
  destruct Hcd as [->|?]; [by left|by right].
Qed.

Lemma bfs_distance_one_more_witness :
  dist [mkNode (P 0) true [1] 1; mkNode (P 1) true [0; 2] 0;
        mkNode (P 2) true [1] 1]%nat 1 = 0%nat ∧
  ∀ n, reach (graph path_heap) 1 n → n ≠ 1%nat →
       ∃ c p ns, reach (graph path_heap) 1 c ∧ graph path_heap !! c = Some (p, ns) ∧
                 n ∈ ns ∧
                 dist [mkNode (P 0) true [1] 1; mkNode (P 1) true [0; 2] 0;
                       mkNode (P 2) true [1] 1]%nat n
                 = (dist [mkNode (P 0) true [1] 1; mkNode (P 1) true [0; 2] 0;
                          mkNode (P 2) true [1] 1]%nat c + 1)%nat.
Proof.
  apply (bfs_distance_one_more 5 path_heap 1%nat _ 0%nat
           [SetDistance 0 1; SetDistance 2 1; Draw 1; Draw 0; Draw 2]%nat).
  - apply (bool_decide_unpack _). vm_compute. exact I.
  - vm_compute. reflexivity.
Defined.

(** X16.  On a fresh store, the node [bfs] returns is reached from the
    start node, and no node reached from the start has a greater
    [Distance]. *)
Theorem bfs_returns_farthest fuel h start h' far tr :
  fresh h → bfs fuel h start = Ok (h', far, tr) →
  reach (graph h) start far ∧
  ∀ n, reach (graph h) start n → (dist h' n ≤ dist h' far)%nat.
Proof.
  intros Hfresh Hbfs.
  destruct (bfs_fresh_final _ _ _ _ _ _ Hfresh Hbfs)
    as (st' & -> & -> & -> & Hq & Hreach & Hdist & [(before & after & Hsplit & Hb & Ha) _]).
  split.
  - apply (noted_reached _ _ _ _ Hreach Hdist Hq). rewrite Hsplit.
    apply elem_of_app. right. by left.
  - intros n Hn%(noted_reached _ _ _ _ Hreach Hdist Hq). rewrite Hsplit in Hn.
    apply elem_of_app in Hn as [Hn%Hb|[->|Hn%Ha]%elem_of_cons]; lia.
Qed.

Lemma bfs_returns_farthest_witness :
  reach (graph path_heap) 1 0 ∧
  ∀ n, reach (graph path_heap) 1 n →
       (dist [mkNode (P 0) true [1] 1; mkNode (P 1) true [0; 2] 0;
              mkNode (P 2) true [1] 1]%nat n
        ≤ dist [mkNode (P 0) true [1] 1; mkNode (P 1) true [0; 2] 0;
                mkNode (P 2) true [1] 1]%nat 0)%nat.
Proof.
  apply (bfs_returns_farthest 5 path_heap 1%nat _ 0%nat
           [SetDistance 0 1; SetDistance 2 1; Draw 1; Draw 0; Draw 2]%nat).
  - apply (bool_decide_unpack _). vm_compute. exact I.
  - vm_compute. reflexivity.
Defined.

End Diameter.
